(** * Cube3D: the layer-rotation engine and the gesture resolver

    A shallow embedding of [src/src/RubiksCube.js] (class [RubiksCube]),
    of the pointer handlers of [src/src/components/Cube.jsx] and of their
    older copy in [src/backup/control.js].

    Numbers.  The JavaScript code computes with doubles and removes the
    drift of every turn by rounding ([finishRotation]).  The embedding is
    the exact-arithmetic reading of that code:
    - angles of the engine are counted in quarter turns (one unit is
      [Math.PI / 2]), so that the sines and cosines of every angle a
      completed turn produces are integers;
    - grid positions and matrix entries of the engine are integers ([Z]),
      times and easing values are rationals ([Q]);
    - the resolver, which normalises vectors, is embedded over the real
      numbers ([R]).  *)

From Stdlib Require Import ZArith QArith Qround Qminmax List Bool String Lia.
From Stdlib Require Import Permutation.
Import ListNotations.

Local Open Scope Z_scope.

(** ** JavaScript numbers *)

(** [Math.round]: the nearest integer, halves rounded up. *)
Definition Math_round (q : Q) : Z := Qfloor (q + (1 # 2))%Q.

(** ** three.js vectors, matrices and Euler angles (exact part) *)

Module Three.

(** [THREE.Vector3] with integer components. *)
Record Vector3 : Set := vec3 { x : Z; y : Z; z : Z }.

(** [v[k]] for a property name [k]; [None] is JavaScript's [undefined]. *)
Definition get (v : Vector3) (k : string) : option Z :=
  if String.eqb k "x" then Some (x v)
  else if String.eqb k "y" then Some (y v)
  else if String.eqb k "z" then Some (z v)
  else None.

(** The rotation part of a [THREE.Matrix4] ([mRC]: row R, column C). *)
Record Matrix3 : Set := mat3 {
  m11 : Z; m12 : Z; m13 : Z;
  m21 : Z; m22 : Z; m23 : Z;
  m31 : Z; m32 : Z; m33 : Z }.

Definition identity : Matrix3 := mat3 1 0 0  0 1 0  0 0 1.

(** [a.multiply(b)]. *)
Definition multiply (a b : Matrix3) : Matrix3 :=
  mat3 (m11 a * m11 b + m12 a * m21 b + m13 a * m31 b)
       (m11 a * m12 b + m12 a * m22 b + m13 a * m32 b)
       (m11 a * m13 b + m12 a * m23 b + m13 a * m33 b)
       (m21 a * m11 b + m22 a * m21 b + m23 a * m31 b)
       (m21 a * m12 b + m22 a * m22 b + m23 a * m32 b)
       (m21 a * m13 b + m22 a * m23 b + m23 a * m33 b)
       (m31 a * m11 b + m32 a * m21 b + m33 a * m31 b)
       (m31 a * m12 b + m32 a * m22 b + m33 a * m32 b)
       (m31 a * m13 b + m32 a * m23 b + m33 a * m33 b).

(** [v.applyMatrix4(m)] for a matrix without translation. *)
Definition applyMatrix (m : Matrix3) (v : Vector3) : Vector3 :=
  vec3 (m11 m * x v + m12 m * y v + m13 m * z v)
       (m21 m * x v + m22 m * y v + m23 m * z v)
       (m31 m * x v + m32 m * y v + m33 m * z v).

(** [Math.cos] and [Math.sin] of a whole number of quarter turns. *)
Definition cos_qt (k : Z) : Z :=
  match k mod 4 with 0 => 1 | 2 => -1 | _ => 0 end.

Definition sin_qt (k : Z) : Z :=
  match k mod 4 with 1 => 1 | 3 => -1 | _ => 0 end.

(** [Math.asin(clamp(v, -1, 1))], in quarter turns. *)
Definition asin_qt (v : Z) : Z := Z.max (-1) (Z.min v 1).

(** [Math.atan2(b, a)], in quarter turns, for a point on a coordinate
    axis; the entries of a quarter-turn rotation matrix that three.js
    passes here are always of that kind ([0] stands for the other
    arguments, which the exact model never produces).  A half turn is
    written [2]: on doubles [Math.atan2] answers [Math.PI] or
    [-Math.PI] there, by the sign of a residue of rounding that exact
    arithmetic does not have.  The two are the same angle and give the
    same matrix ([cos_qt] and [sin_qt] count modulo 4), so what is
    stated of orientations is stated of their matrices, not of the
    angles. *)
Definition atan2_qt (b a : Z) : Z :=
  if b =? 0 then (if a <? 0 then 2 else 0)
  else if a =? 0 then (if 0 <? b then 1 else -1)
  else 0.

(** [THREE.Euler], order ['XYZ'], angles in quarter turns. *)
Record Euler : Set := euler { ex : Z; ey : Z; ez : Z }.

Definition Euler_eqb (a b : Euler) : bool :=
  (ex a =? ex b) && (ey a =? ey b) && (ez a =? ez b).

(** [Matrix4.makeRotationFromEuler], order ['XYZ']. *)
Definition makeRotationFromEuler (e : Euler) : Matrix3 :=
  let a := cos_qt (ex e) in let b := sin_qt (ex e) in
  let c := cos_qt (ey e) in let d := sin_qt (ey e) in
  let e' := cos_qt (ez e) in let f := sin_qt (ez e) in
  let ae := a * e' in let af := a * f in
  let be := b * e' in let bf := b * f in
  mat3 (c * e')       (- c * f)      d
       (af + be * d)  (ae - bf * d)  (- b * c)
       (bf - ae * d)  (be + af * d)  (a * c).

(** [Euler.setFromRotationMatrix], order ['XYZ']; the test
    [Math.abs(m13) < 0.9999999] reads [|m13| < 1] on integers. *)
Definition setFromRotationMatrix (m : Matrix3) : Euler :=
  if Z.abs (m13 m) <? 1
  then euler (atan2_qt (- m23 m) (m33 m)) (asin_qt (m13 m))
             (atan2_qt (- m12 m) (m11 m))
  else euler (atan2_qt (m32 m) (m22 m)) (asin_qt (m13 m)) 0.

End Three.

(** ** [RubiksCube.js] *)

Module RubiksCube.
Import Three.

(** A cubie: the [position] and [rotation] of its mesh, relative to its
    parent (the cube group, or the pivot while a turn is running). *)
Record Cubie : Set := cubie { position : Vector3; rotation : Euler }.

(** The pivot [THREE.Object3D] of a turn: its Euler angles, in quarter
    turns; during an animation they are fractions. *)
Record Pivot : Set := pivot { px : Q; py : Q; pz : Q }.

(** [pivot.rotation[axis] = v]; another property name leaves the
    rotation alone. *)
Definition set_rotation (p : Pivot) (axis : string) (v : Q) : Pivot :=
  if String.eqb axis "x" then pivot v (py p) (pz p)
  else if String.eqb axis "y" then pivot (px p) v (pz p)
  else if String.eqb axis "z" then pivot (px p) (py p) v
  else p.

(** The matrix of the pivot.  [finishRotation] runs only when the pivot
    stands at a whole number of quarter turns ([animateStep_final_angle]),
    which [Qfloor] then returns unchanged. *)
Definition pivot_matrix (p : Pivot) : Matrix3 :=
  makeRotationFromEuler (euler (Qfloor (px p)) (Qfloor (py p)) (Qfloor (pz p))).

(** The closure [animateStep] that an animated turn leaves with
    [requestAnimationFrame], with the variables it captured. *)
Record Animation : Set := animation {
  anim_pivot : Pivot;
  anim_activeCubies : list nat;
  anim_axis : string;
  anim_targetRotation : Z;
  anim_startTime : Q;
  anim_duration : Q }.

Record State : Set := state {
  cubies : list Cubie;
  isAnimating : bool;
  pending : option Animation }.

(** The constructor: the three nested loops over the grid. *)
Definition grid_range : list Z := [-1; 0; 1].

Definition grid : list Vector3 :=
  flat_map (fun gx =>
    flat_map (fun gy =>
      map (fun gz => vec3 gx gy gz) grid_range) grid_range) grid_range.

Definition solved : State :=
  state (map (fun p => cubie p (euler 0 0 0)) grid) false None.

(** [Object3D.attach], seen from the cubie: its matrix is multiplied on
    the left by [m] (the inverse of the new parent's world matrix times
    the old parent's world matrix) and decomposed again. *)
Definition attach (m : Matrix3) (c : Cubie) : Cubie :=
  cubie (applyMatrix m (position c))
        (setFromRotationMatrix (multiply m (makeRotationFromEuler (rotation c)))).

(** The rounding of [finishRotation]: positions to integers, angles to
    multiples of [Math.PI / 2]. *)
Definition round_cubie (c : Cubie) : Cubie :=
  cubie (vec3 (Math_round (inject_Z (x (position c))))
              (Math_round (inject_Z (y (position c))))
              (Math_round (inject_Z (z (position c)))))
        (euler (Math_round (inject_Z (ex (rotation c))))
               (Math_round (inject_Z (ey (rotation c))))
               (Math_round (inject_Z (ez (rotation c))))).

(** [c => Math.round(c.position[axis]) === index]. *)
Definition in_slice (axis : string) (index : Z) (c : Cubie) : bool :=
  match get (position c) axis with
  | Some v => Math_round (inject_Z v) =? index
  | None => false
  end.

(** [this.cubies.filter(p)], as the indices of the cubies it keeps. *)
Fixpoint filter_from (n : nat) (p : Cubie -> bool) (cs : list Cubie) : list nat :=
  match cs with
  | [] => []
  | c :: cs' =>
      if p c then n :: filter_from (S n) p cs' else filter_from (S n) p cs'
  end.

(** [active.forEach(f)], on the array the indices point into. *)
Fixpoint forEach_from (n : nat) (active : list nat) (f : Cubie -> Cubie)
    (cs : list Cubie) : list Cubie :=
  match cs with
  | [] => []
  | c :: cs' =>
      (if existsb (Nat.eqb n) active then f c else c)
        :: forEach_from (S n) active f cs'
  end.

(** [finishRotation(pivot, activeCubies, axis)]: every cubie of the
    layer goes back under the cube with the transform the turned pivot
    gave it, rounded; the pivot is dropped and the engine is idle. *)
Definition finishRotation (pv : Pivot) (activeCubies : list nat)
    (axis : string) (st : State) : State :=
  state (forEach_from 0 activeCubies
           (fun c => round_cubie (attach (pivot_matrix pv) c)) (cubies st))
        false (pending st).

(** [(Math.PI / 2) * direction * -1], in quarter turns. *)
Definition targetRotation (direction : Z) : Z := 1 * direction * -1.

(** [rotateLayer(axis, index, direction, animate, duration)]; [now] is
    what [performance.now()] returns. *)
Definition rotateLayer (axis : string) (index direction : Z) (animate : bool)
    (duration now : Q) (st : State) : State :=
  if isAnimating st then st
  else
    let activeCubies := filter_from 0 (in_slice axis index) (cubies st) in
    if (List.length activeCubies =? 0)%nat then st
    else
      let pv := pivot 0 0 0 in
      let attached :=
        state (forEach_from 0 activeCubies (attach identity) (cubies st))
              (isAnimating st) (pending st) in
      if animate then
        state (cubies attached) true
              (Some (animation pv activeCubies axis (targetRotation direction)
                               now duration))
      else
        finishRotation
          (set_rotation pv axis (inject_Z (targetRotation direction)))
          activeCubies axis attached.

(** One run of the callback [animateStep(time)]. *)
Definition animateStep (time : Q) (st : State) : State :=
  match pending st with
  | None => st
  | Some a =>
      let elapsed := (time - anim_startTime a)%Q in
      let progress := Qmin (elapsed / anim_duration a) 1 in
      let ease := (1 - (1 - progress) ^ 3)%Q in
      let pv := set_rotation (anim_pivot a) (anim_axis a)
                  (inject_Z (anim_targetRotation a) * ease)%Q in
      if Qlt_le_dec progress 1 then
        state (cubies st) (isAnimating st)
              (Some (animation pv (anim_activeCubies a) (anim_axis a)
                       (anim_targetRotation a) (anim_startTime a)
                       (anim_duration a)))
      else
        finishRotation pv (anim_activeCubies a) (anim_axis a)
          (state (cubies st) (isAnimating st) None)
  end.

End RubiksCube.

(** ** The engine as a transition system *)

Module Engine.
Import Three RubiksCube.

(** What happens to the cube: a call of [rotateLayer], or the browser
    running the callback left with [requestAnimationFrame]. *)
Inductive Event : Set :=
| Call (axis : string) (index direction : Z) (animate : bool) (duration now : Q)
| Frame (time : Q).

Definition step (st : State) (e : Event) : State :=
  match e with
  | Call axis index direction animate duration now =>
      rotateLayer axis index direction animate duration now st
  | Frame time => animateStep time st
  end.

Definition run (events : list Event) (st : State) : State :=
  fold_left step events st.

Definition valid_axis (axis : string) : Prop :=
  axis = "x"%string \/ axis = "y"%string \/ axis = "z"%string.

Definition valid_index (index : Z) : Prop :=
  index = -1 \/ index = 0 \/ index = 1.

Definition valid_direction (direction : Z) : Prop :=
  direction = 1 \/ direction = -1.

(** The preconditions of [rotateLayer]. *)
Definition valid_event (e : Event) : Prop :=
  match e with
  | Call axis index direction _ duration _ =>
      valid_axis axis /\ valid_index index /\ valid_direction direction
      /\ (0 < duration)%Q
  | Frame _ => True
  end.

(** The instant turn [rotateLayer(axis, index, direction, false)]. *)
Definition turn (axis : string) (index direction : Z) (st : State) : State :=
  rotateLayer axis index direction false 300 0 st.

(** The positions of the cubies, in the order of [this.cubies]. *)
Definition positions (st : State) : list Vector3 := map position (cubies st).

(** The layer [axis = index]: the cubies [rotateLayer] selects. *)
Definition layer (axis : string) (index : Z) (st : State) : list Cubie :=
  filter (in_slice axis index) (cubies st).

Definition in_grid (p : Vector3) : Prop :=
  (-1 <= x p <= 1) /\ (-1 <= y p <= 1) /\ (-1 <= z p <= 1).

(** Two turns from the solved cube, the second one animated over two
    frames. *)
Definition two_turns : list Event :=
  [Call "x" 1 1 false 300 0; Call "y" 0 (-1) true 300 0; Frame 150; Frame 300].

(** A turn still on its way: the first frame of an animated turn. *)
Definition mid_turn : list Event := [Call "x" 1 1 true 300 0; Frame 100].

(** What one turn of [k] quarter turns of the pivot does to a cubie. *)
Definition turn_cubie (axis : string) (index k : Z) (c : Cubie) : Cubie :=
  if in_slice axis index c then
    round_cubie
      (attach (pivot_matrix (set_rotation (pivot 0 0 0) axis (inject_Z k)))
              (attach identity c))
  else c.

(** The spec's rotation: [k] quarter turns about the positive [axis] by
    the right-hand rule (counter-clockwise seen from the positive end). *)
Definition right_hand_quarter (axis : string) (p : Vector3) : Vector3 :=
  let (a, b, c) := p in
  if String.eqb axis "x" then vec3 a (- c) b
  else if String.eqb axis "y" then vec3 c b (- a)
  else if String.eqb axis "z" then vec3 (- b) a c
  else p.

Definition right_hand_rotation (axis : string) (k : Z) (p : Vector3) : Vector3 :=
  match k mod 4 with
  | 1 => right_hand_quarter axis p
  | 2 => right_hand_quarter axis (right_hand_quarter axis p)
  | 3 => right_hand_quarter axis
           (right_hand_quarter axis (right_hand_quarter axis p))
  | _ => p
  end.

(** The orientation a cubie shows: the matrix of its Euler angles. *)
Definition orientation (c : Cubie) : Matrix3 :=
  makeRotationFromEuler (rotation c).

(** An Euler triple as [setFromRotationMatrix] writes it. *)
Definition canonical (e : Euler) : Prop :=
  setFromRotationMatrix (makeRotationFromEuler e) = e.

Definition canonicalb (e : Euler) : bool :=
  Euler_eqb (setFromRotationMatrix (makeRotationFromEuler e)) e.

(** The angles [Math.atan2] and [Math.asin] return at quarter turns, and
    the Euler triples made of them. *)
Definition angles : list Z := [-1; 0; 1; 2].

Definition candidates : list Euler :=
  flat_map (fun a =>
    flat_map (fun b => map (fun c => euler a b c) angles) angles) angles.

Definition axes : list string := ["x"; "y"; "z"]%string.

(** The quarter turns of the pivot, up to whole turns. *)
Definition residues : list Z := [0; 1; 2; 3].

(** The matrix of the pivot once [rotateLayer] has set
    [pivot.rotation[axis]] to [k] quarter turns. *)
Definition pivot_at (axis : string) (k : Z) : Matrix3 :=
  pivot_matrix (set_rotation (pivot 0 0 0) axis (inject_Z k)).

(** What a turn does to the position and to the Euler angles of a cubie
    of the layer: [pivot.attach], then [this.attach] under the turned
    pivot. *)
Definition turn_position (axis : string) (k : Z) (p : Vector3) : Vector3 :=
  applyMatrix (pivot_at axis k) (applyMatrix identity p).

Definition turn_rotation (axis : string) (k : Z) (e : Euler) : Euler :=
  setFromRotationMatrix
    (multiply (pivot_at axis k)
       (makeRotationFromEuler
          (setFromRotationMatrix (multiply identity (makeRotationFromEuler e))))).

(** What a turn of the layer [axis = index] does to a grid position. *)
Definition move_position (axis : string) (index k : Z) (p : Vector3) : Vector3 :=
  if in_slice axis index (cubie p (euler 0 0 0))
  then turn_position axis k p else p.

Definition Matrix3_eqb (a b : Matrix3) : bool :=
  (m11 a =? m11 b) && (m12 a =? m12 b) && (m13 a =? m13 b)
  && (m21 a =? m21 b) && (m22 a =? m22 b) && (m23 a =? m23 b)
  && (m31 a =? m31 b) && (m32 a =? m32 b) && (m33 a =? m33 b).

(** What holds of every state the engine reaches: the cubies occupy the
    grid, one each, their angles are as three.js writes them, and a
    pending [animateStep] holds the layer it was started on. *)
Definition well_formed (st : State) : Prop :=
  Permutation (positions st) grid
  /\ Forall (fun c => canonical (rotation c)) (cubies st)
  /\ match pending st with
     | None => isAnimating st = false
     | Some a =>
         isAnimating st = true
         /\ exists index q,
              anim_activeCubies a
              = filter_from 0 (in_slice (anim_axis a) index) (cubies st)
              /\ anim_pivot a = set_rotation (pivot 0 0 0) (anim_axis a) q
     end.

End Engine.

(** ** three.js vectors over the reals (the resolver's arithmetic) *)

From Stdlib Require Import Reals Lra.

Module ThreeR.
Local Open Scope R_scope.

Record Vector2 : Type := vec2 { x2 : R; y2 : R }.
Record Vector3 : Type := vec3 { x : R; y : R; z : R }.
Record Matrix3 : Type := mat3 {
  n11 : R; n12 : R; n13 : R;
  n21 : R; n22 : R; n23 : R;
  n31 : R; n32 : R; n33 : R }.

(** [l || 1]: the divisor of [normalize()]. *)
Definition or_one (l : R) : R := if Req_dec_T l 0 then 1 else l.

Definition length2 (v : Vector2) : R := sqrt (x2 v * x2 v + y2 v * y2 v).

(** [Vector2.normalize()]: [divideScalar(length() || 1)]. *)
Definition normalize2 (v : Vector2) : Vector2 :=
  vec2 (x2 v / or_one (length2 v)) (y2 v / or_one (length2 v)).

Definition dot2 (a b : Vector2) : R := x2 a * x2 b + y2 a * y2 b.

Definition length (v : Vector3) : R := sqrt (x v * x v + y v * y v + z v * z v).

Definition normalize (v : Vector3) : Vector3 :=
  vec3 (x v / or_one (length v)) (y v / or_one (length v))
       (z v / or_one (length v)).

Definition dot (a b : Vector3) : R := x a * x b + y a * y b + z a * z b.

Definition add (a b : Vector3) : Vector3 :=
  vec3 (x a + x b) (y a + y b) (z a + z b).

(** [new THREE.Vector3().crossVectors(a, b)]. *)
Definition crossVectors (a b : Vector3) : Vector3 :=
  vec3 (y a * z b - z a * y b) (z a * x b - x a * z b) (x a * y b - y a * x b).

Definition applyMatrix3 (m : Matrix3) (v : Vector3) : Vector3 :=
  vec3 (n11 m * x v + n12 m * y v + n13 m * z v)
       (n21 m * x v + n22 m * y v + n23 m * z v)
       (n31 m * x v + n32 m * y v + n33 m * z v).

(** [v[name] = 1] on a fresh [new THREE.Vector3()]. *)
Definition unit (name : string) : Vector3 :=
  if String.eqb name "x" then vec3 1 0 0
  else if String.eqb name "y" then vec3 0 1 0
  else if String.eqb name "z" then vec3 0 0 1
  else vec3 0 0 0.

(** The camera, as the map [v => v.project(camera)] from world space to
    normalised device coordinates. *)
Definition Camera : Type := Vector3 -> Vector3.

End ThreeR.

(** ** What both pointer handlers share *)

Module Pointer.
Import ThreeR.
Local Open Scope R_scope.

(** An entry of [raycaster.intersectObjects]: the fields the handlers
    read.  [object_position] is [object.position] and [normalMatrix] is
    [new THREE.Matrix3().getNormalMatrix(object.matrixWorld)]. *)
Record Intersection : Type := intersection {
  object_position : Three.Vector3;
  normalMatrix : Matrix3;
  face_normal : Vector3;
  point : Vector3 }.

(** A [MouseEvent], with what the ray cast through the pointer hits. *)
Record MouseEvent : Type := mouseEvent {
  button : Z;
  movementX : Z;
  movementY : Z;
  raycast : option Intersection }.

(** The arguments of the [rotateLayer] call a handler makes. *)
Record Move : Set := move { move_axis : string; move_index : Z; move_direction : Z }.

End Pointer.

(** ** [components/Cube.jsx]: the pointer handlers *)

Module Cube.
Import ThreeR Pointer.
Local Open Scope R_scope.

(** [Math.abs(dx) < 2 && Math.abs(dy) < 2]. *)
Definition below_threshold (dx dy : Z) : bool :=
  (Z.abs dx <? 2)%Z && (Z.abs dy <? 2)%Z.

Definition worldNormal (si : Intersection) : Vector3 :=
  normalize (applyMatrix3 (normalMatrix si) (face_normal si)).

Definition possibleAxes (worldNormal : Vector3) : list Vector3 :=
  if Rgt_dec (Rabs (x worldNormal)) 0.9 then [vec3 0 1 0; vec3 0 0 1]
  else if Rgt_dec (Rabs (y worldNormal)) 0.9 then [vec3 1 0 0; vec3 0 0 1]
  else [vec3 1 0 0; vec3 0 1 0].

Definition origin (camera : Camera) (si : Intersection) : Vector3 :=
  camera (point si).

Definition dragVec (dx dy : Z) : Vector2 :=
  normalize2 (vec2 (IZR dx) (- IZR dy)).

(** [new THREE.Vector2(pt.x - origin.x, pt.y - origin.y)] for
    [pt = point.clone().add(axis).project(camera)]. *)
Definition axisVec2D (camera : Camera) (si : Intersection) (axis : Vector3)
  : Vector2 :=
  let pt := camera (add (point si) axis) in
  vec2 (x pt - x (origin camera si)) (y pt - y (origin camera si)).

(** The score of one candidate axis. *)
Definition score (camera : Camera) (si : Intersection) (dx dy : Z)
    (axis : Vector3) : R :=
  Rabs (dot2 (dragVec dx dy) (normalize2 (axisVec2D camera si axis))).

(** One round of [possibleAxes.forEach]: the state is
    [(bestAxis, maxDot)], [None] being [null]. *)
Definition keep_best (camera : Camera) (si : Intersection) (dx dy : Z)
    (acc : option Vector3 * R) (axis : Vector3) : option Vector3 * R :=
  let dot := score camera si dx dy axis in
  if Rgt_dec dot (snd acc) then (Some axis, dot) else acc.

Definition best (camera : Camera) (si : Intersection) (dx dy : Z)
  : option Vector3 * R :=
  fold_left (keep_best camera si dx dy) (possibleAxes (worldNormal si))
            (None, 0).

Definition bestAxis camera si dx dy : option Vector3 :=
  fst (best camera si dx dy).

Definition maxDot camera si dx dy : R := snd (best camera si dx dy).

(** ['x'], then ['y'] or ['z'] when that component dominates. *)
Definition axis_name (v : Vector3) : string :=
  let name := "x"%string in
  let name := if Rgt_dec (Rabs (y v)) 0.9 then "y"%string else name in
  let name := if Rgt_dec (Rabs (z v)) 0.9 then "z"%string else name in
  name.

(** [Math.round(startIntersect.object.position[name])]; [name] is one of
    the three axes, so the [None] case is never taken. *)
Definition layer_of (si : Intersection) (name : string) : Z :=
  match Three.get (object_position si) name with
  | Some v => Math_round (inject_Z v)
  | None => 0%Z
  end.

(** The body of [onMouseMove] from [const dx = event.movementX] down to
    the arguments of its [rotateLayer] call; [None] when it returns
    without calling.  Past the gate [bestAxis] is never [null]: the loop
    sets it as soon as [maxDot] is positive ([best_of_two]). *)
Definition resolve (camera : Camera) (si : Intersection) (dx dy : Z)
  : option Move :=
  if below_threshold dx dy then None
  else
    let worldNormal := worldNormal si in
    if Rgt_dec (maxDot camera si dx dy) 0.5 then
      match bestAxis camera si dx dy with
      | None => None
      | Some movementAxis =>
          let rotationAxisVector :=
            normalize (crossVectors movementAxis worldNormal) in
          let rotAxisName := axis_name rotationAxisVector in
          let layerCoord := layer_of si rotAxisName in
          let projected :=
            dot2 (dragVec dx dy)
                 (normalize2 (axisVec2D camera si movementAxis)) in
          let directionSign := if Rgt_dec projected 0 then 1%Z else (-1)%Z in
          let cross := normalize (crossVectors worldNormal movementAxis) in
          let standardRotAxis := unit rotAxisName in
          let rotDir :=
            if Rlt_dec (dot cross standardRotAxis) 0
            then (directionSign * -1)%Z else directionSign in
          Some (move rotAxisName layerCoord rotDir)
      end
    else None.

(** The refs and hooks the handlers close over: [isDraggingRef],
    [startIntersectRef], [rubiksCubeRef] ([None] is [null]) and the orbit
    [controls] ([None] when there are none, else their [enabled]). *)
Record Refs : Type := refs {
  isDraggingRef : bool;
  startIntersectRef : option Intersection;
  rubiksCubeRef : option RubiksCube.State;
  controls : option bool }.

(** [if (controls) controls.enabled = b]. *)
Definition set_enabled (c : option bool) (b : bool) : option bool :=
  match c with Some _ => Some b | None => None end.

Definition getIntersect (event : MouseEvent) (st : Refs) : option Intersection :=
  match rubiksCubeRef st with
  | None => None
  | Some _ => raycast event
  end.

Definition onMouseDown (event : MouseEvent) (st : Refs) : Refs :=
  if negb (button event =? 0)%Z then st
  else
    match rubiksCubeRef st with
    | None => st
    | Some cube =>
        if RubiksCube.isAnimating cube then st
        else
          match getIntersect event st with
          | Some intersect =>
              refs true (Some intersect) (rubiksCubeRef st)
                   (set_enabled (controls st) false)
          | None => st
          end
    end.

(** [onMouseMove]: the new refs, and the move it asked the cube for. *)
Definition onMouseMove (camera : Camera) (now : Q) (event : MouseEvent)
    (st : Refs) : Refs * option Move :=
  match isDraggingRef st, startIntersectRef st, rubiksCubeRef st with
  | true, Some startIntersect, Some rubiksCube =>
      if RubiksCube.isAnimating rubiksCube then (st, None)
      else
        match resolve camera startIntersect (movementX event) (movementY event) with
        | None => (st, None)
        | Some m =>
            (refs false None
                  (Some (RubiksCube.rotateLayer (move_axis m) (move_index m)
                           (move_direction m) true 300 now rubiksCube))
                  (set_enabled (controls st) true),
             Some m)
        end
  | _, _, _ => (st, None)
  end.

Definition onMouseUp (st : Refs) : Refs :=
  refs false None (rubiksCubeRef st) (set_enabled (controls st) true).

(** [Math.floor(Math.random() * n)], for the value [r] that
    [Math.random()] returns. *)
Definition random_index (r : Q) (n : nat) : nat :=
  Z.to_nat (Qfloor (r * inject_Z (Z.of_nat n))).

(** The loop of [scramble], from round [i] on; [random k] is what the
    [k]-th call of [Math.random()] returns, a number of [[0, 1)], so that
    the defaults of [nth] are never used. *)
Fixpoint scramble_rounds (rounds i : nat) (random : nat -> Q)
    (cube : RubiksCube.State) : RubiksCube.State :=
  match rounds with
  | O => cube
  | S rounds' =>
      let axis :=
        nth (random_index (random (3 * i)%nat) 3) ["x"; "y"; "z"]%string
            "x"%string in
      let index := nth (random_index (random (3 * i + 1)%nat) 3) [-1; 0; 1]%Z 0%Z in
      let dir := nth (random_index (random (3 * i + 2)%nat) 2) [1; -1]%Z 1%Z in
      scramble_rounds rounds' (S i) random
        (RubiksCube.rotateLayer axis index dir false 300 0 cube)
  end.

(** The [scramble] method the component exposes. *)
Definition scramble (random : nat -> Q) (st : Refs) : Refs :=
  match rubiksCubeRef st with
  | Some cube =>
      if RubiksCube.isAnimating cube then st
      else refs (isDraggingRef st) (startIntersectRef st)
                (Some (scramble_rounds 20 0 random cube)) (controls st)
  | None => st
  end.

(** A gesture, as the browser delivers it. *)
Inductive PointerEvent : Type :=
| MouseDown (event : MouseEvent)
| MouseMove (now : Q) (event : MouseEvent)
| MouseUp.

(** The handlers run over a list of events, with the moves they emit. *)
Fixpoint dispatch (camera : Camera) (events : list PointerEvent) (st : Refs)
  : Refs * list Move :=
  match events with
  | [] => (st, [])
  | MouseDown event :: rest => dispatch camera rest (onMouseDown event st)
  | MouseMove now event :: rest =>
      let (st', emitted) := onMouseMove camera now event st in
      let (st'', moves) := dispatch camera rest st' in
      (st'', match emitted with Some m => m :: moves | None => moves end)
  | MouseUp :: rest => dispatch camera rest (onMouseUp st)
  end.

(** One gesture: the button goes down, the pointer moves through the
    samples (each with the time of its event), the button goes up. *)
Definition gesture (down : MouseEvent) (samples : list (Q * MouseEvent))
  : list PointerEvent :=
  MouseDown down
    :: map (fun s => MouseMove (fst s) (snd s)) samples ++ [MouseUp].

(** The drag stands at 45 degrees to the screen direction of each
    candidate axis: its cosine with each is [cos (PI / 4)]. *)
Definition at_45_degrees (camera : Camera) (si : Intersection) (dx dy : Z)
  : Prop :=
  forall axis, In axis (possibleAxes (worldNormal si)) ->
    dot2 (dragVec dx dy) (normalize2 (axisVec2D camera si axis))
    = cos (PI / 4).

(** *** Sample picks and cameras *)

(** The front face of the centre cubie of the front layer, hit in its
    middle; the cube stands unrotated in the world. *)
Definition front_pick : Intersection :=
  intersection (Three.vec3 0 0 1) (mat3 1 0 0  0 1 0  0 0 1)
               (vec3 0 0 1) (vec3 0 0 1.475).

(** A perspective camera on the [z] axis, 7 units from the centre,
    looking at the front face. *)
Definition front_camera : Camera :=
  fun v => vec3 (x v / (7 - z v)) (y v / (7 - z v)) (z v / 7).

(** An oblique parallel view, in which the screen directions of the [x]
    and [y] axes stand 45 degrees apart. *)
Definition oblique_camera : Camera :=
  fun v => vec3 (x v + y v) (y v) (z v).

(** The refs once the component is mounted, the cube solved. *)
Definition mounted : Refs := refs false None (Some RubiksCube.solved) (Some true).

(** The same refs with a drag on [front_pick] under way. *)
Definition dragging_front : Refs :=
  refs true (Some front_pick) (Some RubiksCube.solved) (Some false).

End Cube.

(** ** [backup/control.js]: the older copy of the handlers *)

Module Control.
Import ThreeR Pointer.
Local Open Scope R_scope.

Section WithCube.

(** [control.js] imports its [RubiksCube] from [./cube.js], which is not
    part of the sources at hand: the class is a parameter here. *)
Variable CubeJs : Type.
Variable cube_isAnimating : CubeJs -> bool.
Variable cube_rotateLayer : string -> Z -> Z -> CubeJs -> CubeJs.

(** The module-level variables of [control.js]. *)
Record Globals : Type := globals {
  startIntersect : option Intersection;
  isDragging : bool;
  controls_enabled : bool;
  rubiksCube : CubeJs }.

Definition getIntersect (event : MouseEvent) : option Intersection :=
  raycast event.

Definition onMouseDown (event : MouseEvent) (st : Globals) : Globals :=
  if cube_isAnimating (rubiksCube st) then st
  else if negb (button event =? 0)%Z then st
  else
    match getIntersect event with
    | Some intersect => globals (Some intersect) true false (rubiksCube st)
    | None => st
    end.

(** [onMouseMove]; the unused [moveX] is left out. *)
Definition onMouseMove (camera : Camera) (event : MouseEvent) (st : Globals)
  : Globals * option Move :=
  match isDragging st, startIntersect st with
  | true, Some si =>
      if cube_isAnimating (rubiksCube st) then (st, None)
      else
        match getIntersect event with
        | None => (st, None)
        | Some intersect =>
            let dx := movementX event in
            let dy := movementY event in
            if (Z.abs dx <? 2)%Z && (Z.abs dy <? 2)%Z then (st, None)
            else
              let worldNormal :=
                normalize (applyMatrix3 (normalMatrix si) (face_normal si)) in
              let possibleAxes :=
                if Rgt_dec (Rabs (x worldNormal)) 0.9
                then [vec3 0 1 0; vec3 0 0 1]
                else if Rgt_dec (Rabs (y worldNormal)) 0.9
                then [vec3 1 0 0; vec3 0 0 1]
                else [vec3 1 0 0; vec3 0 1 0] in
              let origin := camera (point si) in
              let dragVec := normalize2 (vec2 (IZR dx) (- IZR dy)) in
              let loop :=
                fold_left
                  (fun (acc : option Vector3 * R) (axis : Vector3) =>
                     let pt := camera (add (point si) axis) in
                     let axisVec2D :=
                       normalize2 (vec2 (x pt - x origin) (y pt - y origin)) in
                     let dot := Rabs (dot2 dragVec axisVec2D) in
                     if Rgt_dec dot (snd acc) then (Some axis, dot) else acc)
                  possibleAxes (None, 0) in
              let bestAxis := fst loop in
              let maxDot := snd loop in
              if Rgt_dec maxDot 0.5 then
                match bestAxis with
                | None => (st, None)
                | Some bestAxis =>
                    let axisName := "x"%string in
                    let axisName :=
                      if Rgt_dec (Rabs (y bestAxis)) 0.9 then "y"%string
                      else axisName in
                    let axisName :=
                      if Rgt_dec (Rabs (z bestAxis)) 0.9 then "z"%string
                      else axisName in
                    let layerIndex :=
                      match Three.get (object_position si) axisName with
                      | Some v => Math_round (inject_Z v)
                      | None => 0%Z
                      end in
                    let pt := camera (add (point si) bestAxis) in
                    let axisVec2D := vec2 (x pt - x origin) (y pt - y origin) in
                    let projected := dot2 dragVec (normalize2 axisVec2D) in
                    let movementAxis := bestAxis in
                    let rotationAxisVector :=
                      normalize (crossVectors movementAxis worldNormal) in
                    let rotAxisName := "x"%string in
                    let rotAxisName :=
                      if Rgt_dec (Rabs (y rotationAxisVector)) 0.9
                      then "y"%string else rotAxisName in
                    let rotAxisName :=
                      if Rgt_dec (Rabs (z rotationAxisVector)) 0.9
                      then "z"%string else rotAxisName in
                    let directionSign :=
                      if Rgt_dec projected 0 then 1%Z else (-1)%Z in
                    let layerCoord :=
                      match Three.get (object_position si) rotAxisName with
                      | Some v => Math_round (inject_Z v)
                      | None => 0%Z
                      end in
                    let cross :=
                      normalize (crossVectors worldNormal movementAxis) in
                    let standardRotAxis := unit rotAxisName in
                    let rotDir :=
                      if Rlt_dec (dot cross standardRotAxis) 0
                      then (directionSign * -1)%Z else directionSign in
                    (globals None false true
                       (cube_rotateLayer rotAxisName layerCoord rotDir
                          (rubiksCube st)),
                     Some (move rotAxisName layerCoord rotDir))
                end
              else (st, None)
        end
  | _, _ => (st, None)
  end.

Definition onMouseUp (st : Globals) : Globals :=
  globals None false true (rubiksCube st).

End WithCube.

(** *** Sample globals *)

(** [./cube.js] is taken to be the class of [RubiksCube.js], its
    [rotateLayer] called with the default [animate] and [duration]. *)
Definition sample_rotateLayer (axis : string) (index direction : Z)
    (cube : RubiksCube.State) : RubiksCube.State :=
  RubiksCube.rotateLayer axis index direction true 300 0 cube.

(** A drag on [Cube.front_pick] under way. *)
Definition dragging_front : Globals RubiksCube.State :=
  globals RubiksCube.State (Some Cube.front_pick) true false RubiksCube.solved.

End Control.


From Stdlib Require Lqa.

(** ** [RubiksCube.js]: the materials of the constructor *)

Module Materials.
Import Three RubiksCube.

(** [colors], and the colour of a face that is not a sticker. *)
Definition colors_R : Z := 0xb90000.
Definition colors_L : Z := 0xff5900.
Definition colors_U : Z := 0xffffff.
Definition colors_D : Z := 0xffd500.
Definition colors_F : Z := 0x009b48.
Definition colors_B : Z := 0x0045ad.
Definition dark : Z := 0x222222.

(** The array [materials] of the cubie the loops make at [(x, y, z)]. *)
Definition materials (home : Vector3) : list Z :=
  [ if x home =? 1 then colors_R else dark;
    if x home =? -1 then colors_L else dark;
    if y home =? 1 then colors_U else dark;
    if y home =? -1 then colors_D else dark;
    if z home =? 1 then colors_F else dark;
    if z home =? -1 then colors_B else dark ].

(** The outward normals of the six sides of a [BoxGeometry], in the order
    of its material groups: [+x, -x, +y, -y, +z, -z]. *)
Definition face_normals : list Vector3 :=
  [vec3 1 0 0; vec3 (-1) 0 0; vec3 0 1 0; vec3 0 (-1) 0; vec3 0 0 1;
   vec3 0 0 (-1)].

Definition dot (a b : Vector3) : Z := x a * x b + y a * y b + z a * z b.

(** The cubies with the place the constructor made them at: the [i]-th
    cubie of [this.cubies] is the one made [i]-th. *)
Definition with_home (st : State) : list (Vector3 * Cubie) :=
  combine grid (cubies st).

(** The direction a side of a cubie faces once the cubie is turned. *)
Definition facing (c : Cubie) (n : Vector3) : Vector3 :=
  applyMatrix (makeRotationFromEuler (rotation c)) n.

(** [v] is one of the six normals. *)
Definition normalb (v : Vector3) : bool :=
  existsb (fun n => (x v =? x n) && (y v =? y n) && (z v =? z n))
          face_normals.

(** The cubie stands where its turns have taken the place it was made
    at. *)
Definition carried (hc : Vector3 * Cubie) : Prop :=
  position (snd hc) = facing (snd hc) (fst hc).

End Materials.

(** ** Sequences of instant turns *)

Module Moves.
Import Three RubiksCube Engine.

(** The arguments [(axis, index, direction)] of one call. *)
Definition Turn : Set := (string * Z * Z)%type.

(** The preconditions of [rotateLayer], for the arguments of one call. *)
Definition valid_turn (m : Turn) : Prop :=
  let '(axis, index, direction) := m in
  valid_axis axis /\ valid_index index /\ valid_direction direction.

Definition apply_turn (st : State) (m : Turn) : State :=
  let '(axis, index, direction) := m in turn axis index direction st.

(** The calls [rotateLayer(axis, index, direction, false)] made one
    after the other. *)
Definition apply_turns (ms : list Turn) (st : State) : State :=
  fold_left apply_turn ms st.

(** The sequence that takes the turns back: last turn first, each with
    its direction negated. *)
Definition undo (ms : list Turn) : list Turn :=
  map (fun m : Turn => let '(axis, index, direction) := m in
                       (axis, index, - direction)) (rev ms).

(** [1 - Math.pow(1 - progress, 3)] for the [progress] of a frame at
    [time], as [animateStep] computes it. *)
Definition ease_at (start duration time : Q) : Q :=
  (1 - (1 - Qmin ((time - start) / duration) 1) ^ 3)%Q.

(** The state a frame before the end leaves: the cubies as they are, the
    callback waiting again, the pivot at the eased angle. *)
Definition turning (axis : string) (index direction : Z) (duration now time : Q)
    (st : State) : State :=
  state (cubies st) true
    (Some (animation
             (set_rotation (pivot 0 0 0) axis
                (inject_Z (targetRotation direction)
                 * ease_at now duration time)%Q)
             (filter_from 0 (in_slice axis index) (cubies st)) axis
             (targetRotation direction) now duration)).

(** The preconditions of [rotateLayer] hold of the callback that waits. *)
Definition pending_valid (st : State) : Prop :=
  match pending st with
  | Some a => (0 < anim_duration a)%Q
  | None => True
  end.

End Moves.

(** ** [components/Cube.jsx]: what [scramble] asks of the cube *)

Module Scramble.
Import RubiksCube Engine.

(** The calls of [rotateLayer] the loop of [scramble] makes from round
    [i] on, for the values [random k] of [Math.random()]. *)
Fixpoint scramble_calls (rounds i : nat) (random : nat -> Q) : list Event :=
  match rounds with
  | O => []
  | S rounds' =>
      Call (nth (Cube.random_index (random (3 * i)%nat) 3)
                ["x"; "y"; "z"]%string "x"%string)
           (nth (Cube.random_index (random (3 * i + 1)%nat) 3) [-1; 0; 1]%Z 0%Z)
           (nth (Cube.random_index (random (3 * i + 2)%nat) 2) [1; -1]%Z 1%Z)
           false 300 0
        :: scramble_calls rounds' (S i) random
  end.

(** [Math.random()] returns a number of [[0, 1)]. *)
Definition unit_interval (random : nat -> Q) : Prop :=
  forall k, (0 <= random k)%Q /\ (random k < 1)%Q.

End Scramble.

(** ** Directions in the world, for the moves of the pointer handlers *)

Module Directions.
Import ThreeR.
Local Open Scope R_scope.

(** [v.multiplyScalar(s)]. *)
Definition multiplyScalar (v : Vector3) (s : R) : Vector3 :=
  vec3 (x v * s) (y v * s) (z v * s).

(** The normals of the sides of a cubie that stands at a whole number of
    quarter turns: the six directions of the axes. *)
Definition axis_aligned (n : Vector3) : Prop :=
  In n [vec3 1 0 0; vec3 (-1) 0 0; vec3 0 1 0; vec3 0 (-1) 0; vec3 0 0 1;
        vec3 0 0 (-1)].

(** A vector of the engine, which counts in integers, among the
    vectors of the handlers. *)
Definition real_vector (v : Three.Vector3) : Vector3 :=
  vec3 (IZR (Three.x v)) (IZR (Three.y v)) (IZR (Three.z v)).

End Directions.

(** ** [backup/solver.js]: the move history *)

Module Solver.

Section WithCube.

(** [solver.js] imports [rotateFace] from [./cube.js], which is not part
    of the sources at hand: the function is a parameter here, and so is
    the type of the [cubeGroup] it changes in place. *)
Variable CubeGroup : Type.
Variable rotateFace : CubeGroup -> string -> CubeGroup.

(** The cube group the functions are called with, and the module-level
    [moveHistory]. *)
Record World : Type := world {
  cubeGroup : CubeGroup;
  moveHistory : list string }.

Definition makeMove (move : string) (w : World) : World :=
  world (rotateFace (cubeGroup w) move) (moveHistory w ++ [move]).

Definition moves : list string := ["R"; "L"; "U"; "D"; "F"; "B"]%string.

(** The loop of [scramble], from round [i] on; [random k] is what the
    [k]-th call of [Math.random()] returns, a number of [[0, 1)], so that
    the default of [nth] is never used. *)
Fixpoint scramble_from (steps i : nat) (random : nat -> Q) (w : World)
  : World :=
  match steps with
  | O => w
  | S steps' =>
      let m := nth (Cube.random_index (random i) (List.length moves)) moves
                   "undefined"%string in
      scramble_from steps' (S i) random (makeMove m w)
  end.

Definition scramble (steps : nat) (random : nat -> Q) (w : World) : World :=
  scramble_from steps 0 random (world (cubeGroup w) []).

(** What the callback of [autoSolve] closes over: the copy [reverse] of
    the history, the counter [i], and whether [clearInterval] has been
    called. *)
Record Replay : Type := replay {
  reverse : list string;
  replay_i : nat;
  cleared : bool }.

Definition autoSolve (w : World) : Replay :=
  replay (rev (moveHistory w)) 0 false.

(** One run of the callback of [setInterval]; a cleared interval runs it
    no more. *)
Definition tick (s : World * Replay) : World * Replay :=
  let (w, r) := s in
  if cleared r then s
  else if (List.length (reverse r) <=? replay_i r)%nat
  then (w, replay (reverse r) (replay_i r) true)
  else (world (rotateFace (cubeGroup w)
                 (nth (replay_i r) (reverse r) "undefined"%string))
              (moveHistory w),
        replay (reverse r) (S (replay_i r)) false).

(** The interval has come round [n] times. *)
Definition ticks (n : nat) (s : World * Replay) : World * Replay :=
  Nat.iter n tick s.

End WithCube.

(** *** A sample cube group *)

(** A cube group that only keeps the faces turned, last turn first. *)
Definition sample_rotateFace (cubeGroup : list string) (move : string)
  : list string :=
  move :: cubeGroup.

End Solver.
(** * Properties of the rotation engine *)

Module EngineFacts.
Import Three RubiksCube Engine.
Local Open Scope Z_scope.

(** ** Rounding and the arrays *)

Lemma Math_round_inject_Z (v : Z) : Math_round (inject_Z v) = v.
Proof.
  unfold Math_round, Qfloor, Qplus, inject_Z; simpl.
  symmetry; apply (Z.div_unique _ 2 v 1); lia.
Qed.

Lemma round_cubie_id (c : Cubie) : round_cubie c = c.
Proof.
  destruct c as [[px0 py0 pz0] [a b c]]; unfold round_cubie; simpl.
  now rewrite !Math_round_inject_Z.
Qed.

Lemma in_slice_get (axis : string) (index : Z) (c : Cubie) :
  in_slice axis index c =
  match get (position c) axis with Some v => v =? index | None => false end.
Proof.
  unfold in_slice; destruct (get (position c) axis); trivial.
  now rewrite Math_round_inject_Z.
Qed.

Lemma existsb_eqb_app (n : nat) (pre l : list nat) :
  (forall i, In i pre -> (i < n)%nat) ->
  existsb (Nat.eqb n) (pre ++ l) = existsb (Nat.eqb n) l.
Proof.
  intros Hpre; rewrite existsb_app.
  replace (existsb (Nat.eqb n) pre) with false; trivial.
  symmetry; apply not_true_is_false; intros H.
  apply existsb_exists in H as (i & Hi & E).
  apply Nat.eqb_eq in E; subst i; specialize (Hpre _ Hi); lia.
Qed.

Lemma filter_from_ge (p : Cubie -> bool) (cs : list Cubie) :
  forall n i, In i (filter_from n p cs) -> (n <= i)%nat.
Proof.
  induction cs as [|c cs IH]; simpl; intros n i H; [easy|].
  destruct (p c); [destruct H as [<-|H]; [lia|]|];
    specialize (IH _ _ H); lia.
Qed.

(** [forEach] over the result of [filter] touches the cubies the
    predicate holds of, and no other. *)
Lemma forEach_filter_pre (p : Cubie -> bool) (f : Cubie -> Cubie)
    (cs : list Cubie) :
  forall n pre, (forall i, In i pre -> (i < n)%nat) ->
    forEach_from n (pre ++ filter_from n p cs) f cs
    = map (fun c => if p c then f c else c) cs.
Proof.
  induction cs as [|c cs IH]; intros n pre Hpre; simpl; trivial.
  rewrite existsb_eqb_app by assumption.
  destruct (p c) eqn:E.
  - simpl; rewrite Nat.eqb_refl; simpl; f_equal.
    change (pre ++ n :: filter_from (S n) p cs)
      with (pre ++ [n] ++ filter_from (S n) p cs).
    rewrite app_assoc; apply IH.
    intros i Hi; apply in_app_or in Hi as [Hi|[<-|[]]]; [|lia].
    specialize (Hpre _ Hi); lia.
  - replace (existsb (Nat.eqb n) (filter_from (S n) p cs)) with false.
    + f_equal; apply IH; intros i Hi; specialize (Hpre _ Hi); lia.
    + symmetry; apply not_true_is_false; intros H.
      apply existsb_exists in H as (i & Hi & Ei).
      apply Nat.eqb_eq in Ei; subst i.
      apply filter_from_ge in Hi; lia.
Qed.

Lemma forEach_filter (p : Cubie -> bool) (f : Cubie -> Cubie) (cs : list Cubie) :
  forEach_from 0 (filter_from 0 p cs) f cs
  = map (fun c => if p c then f c else c) cs.
Proof. exact (forEach_filter_pre p f cs 0%nat [] (fun i H => False_ind _ H)). Qed.

Lemma filter_from_length (p : Cubie -> bool) (cs : list Cubie) :
  forall n, List.length (filter_from n p cs) = List.length (filter p cs).
Proof.
  induction cs as [|c cs IH]; intros n; simpl; trivial.
  destruct (p c); simpl; now rewrite IH.
Qed.

Lemma filter_nil_map {A : Type} (p : A -> bool) (f : A -> A) (l : list A) :
  filter p l = [] -> map (fun c => if p c then f c else c) l = l.
Proof.
  induction l as [|a l IH]; simpl; trivial.
  destruct (p a); [discriminate|intros H; now rewrite IH].
Qed.

Lemma forEach_forEach (active : list nat) (f g : Cubie -> Cubie) (cs : list Cubie) :
  forall n, forEach_from n active f (forEach_from n active g cs)
            = forEach_from n active (fun c => f (g c)) cs.
Proof.
  induction cs as [|c cs IH]; intros n; simpl; trivial.
  rewrite IH; now destruct (existsb (Nat.eqb n) active).
Qed.

(** ** The pivot *)

Lemma cos_qt_mod (k : Z) : cos_qt (k mod 4) = cos_qt k.
Proof. unfold cos_qt; now rewrite Z.mod_mod. Qed.

Lemma sin_qt_mod (k : Z) : sin_qt (k mod 4) = sin_qt k.
Proof. unfold sin_qt; now rewrite Z.mod_mod. Qed.

Lemma mod4_cases (k : Z) :
  k mod 4 = 0 \/ k mod 4 = 1 \/ k mod 4 = 2 \/ k mod 4 = 3.
Proof. pose proof (Z.mod_pos_bound k 4); lia. Qed.

Lemma pivot_at_x (k : Z) : pivot_at "x" k = makeRotationFromEuler (euler k 0 0).
Proof.
  unfold pivot_at, pivot_matrix.
  change (set_rotation (pivot 0 0 0) "x" (inject_Z k)) with (pivot (inject_Z k) 0 0).
  cbn [px py pz]; now rewrite Qfloor_Z.
Qed.

Lemma pivot_at_y (k : Z) : pivot_at "y" k = makeRotationFromEuler (euler 0 k 0).
Proof.
  unfold pivot_at, pivot_matrix.
  change (set_rotation (pivot 0 0 0) "y" (inject_Z k)) with (pivot 0 (inject_Z k) 0).
  cbn [px py pz]; now rewrite Qfloor_Z.
Qed.

Lemma pivot_at_z (k : Z) : pivot_at "z" k = makeRotationFromEuler (euler 0 0 k).
Proof.
  unfold pivot_at, pivot_matrix.
  change (set_rotation (pivot 0 0 0) "z" (inject_Z k)) with (pivot 0 0 (inject_Z k)).
  cbn [px py pz]; now rewrite Qfloor_Z.
Qed.

Lemma makeRotationFromEuler_mod (a b c : Z) :
  makeRotationFromEuler (euler (a mod 4) (b mod 4) (c mod 4))
  = makeRotationFromEuler (euler a b c).
Proof.
  unfold makeRotationFromEuler; cbn [ex ey ez].
  now rewrite !cos_qt_mod, !sin_qt_mod.
Qed.

Lemma pivot_at_mod (axis : string) (k : Z) :
  valid_axis axis -> pivot_at axis (k mod 4) = pivot_at axis k.
Proof.
  intros [->|[->| ->]]; rewrite ?pivot_at_x, ?pivot_at_y, ?pivot_at_z.
  - apply (makeRotationFromEuler_mod k 0 0).
  - apply (makeRotationFromEuler_mod 0 k 0).
  - apply (makeRotationFromEuler_mod 0 0 k).
Qed.

(** For a property name that is no axis, nothing is ever selected. *)
Lemma in_slice_invalid (axis : string) (index : Z) (c : Cubie) :
  ~ valid_axis axis -> in_slice axis index c = false.
Proof.
  intros H; rewrite in_slice_get; unfold get.
  destruct (String.eqb_spec axis "x"); [exfalso; apply H; left; trivial|].
  destruct (String.eqb_spec axis "y");
    [exfalso; apply H; right; left; trivial|].
  destruct (String.eqb_spec axis "z");
    [exfalso; apply H; right; right; trivial|trivial].
Qed.

Lemma valid_axis_dec (axis : string) : {valid_axis axis} + {~ valid_axis axis}.
Proof.
  unfold valid_axis.
  destruct (string_dec axis "x"); [left; tauto|].
  destruct (string_dec axis "y"); [left; tauto|].
  destruct (string_dec axis "z"); [left; tauto|right; tauto].
Qed.

(** ** One turn, cubie by cubie *)

Lemma turn_cubie_parts (axis : string) (index k : Z) (c : Cubie) :
  turn_cubie axis index k c
  = if in_slice axis index c
    then cubie (turn_position axis k (position c))
               (turn_rotation axis k (rotation c))
    else c.
Proof.
  unfold turn_cubie; destruct (in_slice axis index c); trivial.
  now rewrite round_cubie_id.
Qed.

Lemma get_invalid (axis : string) (p : Vector3) :
  ~ valid_axis axis -> get p axis = None.
Proof.
  intros Ha; unfold get.
  destruct (String.eqb_spec axis "x"); [exfalso; apply Ha; left; trivial|].
  destruct (String.eqb_spec axis "y");
    [exfalso; apply Ha; right; left; trivial|].
  destruct (String.eqb_spec axis "z");
    [exfalso; apply Ha; right; right; trivial|trivial].
Qed.

Lemma turn_position_mod (axis : string) (k : Z) (p : Vector3) :
  valid_axis axis -> turn_position axis (k mod 4) p = turn_position axis k p.
Proof. intros Ha; unfold turn_position; now rewrite pivot_at_mod. Qed.

Lemma turn_rotation_mod (axis : string) (k : Z) (e : Euler) :
  valid_axis axis -> turn_rotation axis (k mod 4) e = turn_rotation axis k e.
Proof. intros Ha; unfold turn_rotation; now rewrite pivot_at_mod. Qed.

(** The position after a turn of [k] quarter turns of the pivot is the
    right-hand rotation of the old one by [k] quarter turns. *)
Lemma turn_position_right_hand (axis : string) (k : Z) (p : Vector3) :
  valid_axis axis -> turn_position axis k p = right_hand_rotation axis k p.
Proof.
  intros Ha; rewrite <- turn_position_mod by assumption.
  unfold right_hand_rotation, turn_position; destruct p as [a b c].
  destruct Ha as [->|[->| ->]]; rewrite ?pivot_at_x, ?pivot_at_y, ?pivot_at_z;
    destruct (mod4_cases k) as [E|[E|[E|E]]]; rewrite E;
    match goal with |- context [makeRotationFromEuler ?e] =>
      let m := eval vm_compute in (makeRotationFromEuler e) in
      change (makeRotationFromEuler e) with m
    end;
    unfold applyMatrix, identity, right_hand_quarter;
    cbn [m11 m12 m13 m21 m22 m23 m31 m32 m33 x y z String.eqb Ascii.eqb
         Bool.eqb];
    f_equal; lia.
Qed.

Lemma turn_position_get (axis : string) (k : Z) (p : Vector3) :
  get (turn_position axis k p) axis = get p axis.
Proof.
  destruct (valid_axis_dec axis) as [Ha|Ha]; [|now rewrite !get_invalid].
  rewrite turn_position_right_hand by assumption.
  unfold right_hand_rotation; destruct p as [a b c].
  destruct Ha as [->|[->| ->]];
    destruct (mod4_cases k) as [E|[E|[E|E]]]; rewrite E; reflexivity.
Qed.

Lemma turn_position_add (axis : string) (k k' : Z) (p : Vector3) :
  valid_axis axis ->
  turn_position axis k (turn_position axis k' p) = turn_position axis (k + k') p.
Proof.
  intros Ha; rewrite !turn_position_right_hand by assumption.
  unfold right_hand_rotation; rewrite (Z.add_mod k k') by lia.
  pose proof (mod4_cases k) as E; pose proof (mod4_cases k') as E'.
  generalize dependent (k mod 4); generalize dependent (k' mod 4).
  intros r' E' r E; destruct p as [a b c].
  destruct Ha as [->|[->| ->]];
    destruct E as [->|[->|[->| ->]]]; destruct E' as [->|[->|[->| ->]]];
    cbn; f_equal; lia.
Qed.

Lemma turn_position_0 (axis : string) (k : Z) (p : Vector3) :
  valid_axis axis -> k mod 4 = 0 -> turn_position axis k p = p.
Proof.
  intros Ha E; rewrite turn_position_right_hand by assumption.
  unfold right_hand_rotation; now rewrite E.
Qed.

Lemma turn_position_in_grid (axis : string) (k : Z) (p : Vector3) :
  valid_axis axis -> in_grid p -> in_grid (turn_position axis k p).
Proof.
  intros Ha; rewrite turn_position_right_hand by assumption.
  unfold right_hand_rotation, in_grid; destruct p as [a b c].
  destruct Ha as [->|[->| ->]];
    destruct (mod4_cases k) as [E|[E|[E|E]]]; rewrite E; cbn; lia.
Qed.

(** ** Euler angles at quarter turns *)

Lemma Euler_eqb_eq (a b : Euler) : Euler_eqb a b = true <-> a = b.
Proof.
  destruct a, b; unfold Euler_eqb; cbn [ex ey ez].
  rewrite !andb_true_iff, !Z.eqb_eq; split.
  - now intros [[-> ->] ->].
  - intros H; injection H; auto.
Qed.

Lemma Matrix3_eqb_eq (a b : Matrix3) : Matrix3_eqb a b = true <-> a = b.
Proof.
  destruct a, b; unfold Matrix3_eqb;
    cbn [m11 m12 m13 m21 m22 m23 m31 m32 m33].
  rewrite !andb_true_iff, !Z.eqb_eq; split.
  - intros H; decompose [and] H; now subst.
  - intros H; injection H; intros; subst; repeat split.
Qed.

Lemma canonicalb_spec (e : Euler) : canonicalb e = true <-> canonical e.
Proof. apply Euler_eqb_eq. Qed.

Lemma atan2_qt_angle (b a : Z) : In (atan2_qt b a) angles.
Proof.
  unfold atan2_qt, angles.
  destruct (b =? 0); [destruct (a <? 0)|destruct (a =? 0);
    [destruct (0 <? b)|]]; simpl; tauto.
Qed.

Lemma asin_qt_angle (v : Z) : In (asin_qt v) angles.
Proof.
  unfold asin_qt, angles; cbn [In]; lia.
Qed.

Lemma In_candidates (a b c : Z) :
  In a angles -> In b angles -> In c angles -> In (euler a b c) candidates.
Proof.
  intros Ha Hb Hc; unfold candidates.
  apply in_flat_map; exists a; split; trivial.
  apply in_flat_map; exists b; split; trivial.
  now apply in_map.
Qed.

Lemma setFromRotationMatrix_candidate (m : Matrix3) :
  In (setFromRotationMatrix m) candidates.
Proof.
  unfold setFromRotationMatrix; destruct (Z.abs (m13 m) <? 1);
    apply In_candidates;
    auto using atan2_qt_angle, asin_qt_angle; simpl; tauto.
Qed.

Lemma canonical_candidate (e : Euler) : canonical e -> In e candidates.
Proof. intros <-; apply setFromRotationMatrix_candidate. Qed.

(** A check over the candidates, the axes and the residues settles a
    property of all canonical angles and all turns. *)
Lemma for_all_turns (P : string -> Z -> Euler -> bool) :
  forallb (fun a =>
    forallb (fun r =>
      forallb (fun e => implb (canonicalb e) (P a r e)) candidates)
      residues) axes = true ->
  forall axis k e, valid_axis axis -> canonical e -> P axis (k mod 4) e = true.
Proof.
  intros H axis k e Ha He.
  rewrite forallb_forall in H.
  assert (Hin : In axis axes)
    by (unfold axes; cbn [In]; unfold valid_axis in Ha; intuition auto).
  specialize (H _ Hin); rewrite forallb_forall in H.
  assert (Hr : In (k mod 4) residues)
    by (unfold residues; cbn [In]; pose proof (mod4_cases k); lia).
  specialize (H _ Hr); rewrite forallb_forall in H.
  specialize (H _ (canonical_candidate e He)).
  apply canonicalb_spec in He; rewrite He in H; exact H.
Qed.

Lemma turn_rotation_canonical (axis : string) (k : Z) (e : Euler) :
  valid_axis axis -> canonical e -> canonical (turn_rotation axis k e).
Proof.
  intros Ha He; rewrite <- turn_rotation_mod by assumption.
  apply canonicalb_spec.
  exact (for_all_turns (fun a r e => canonicalb (turn_rotation a r e))
           ltac:(vm_compute; reflexivity) axis k e Ha He).
Qed.

Lemma turn_rotation_0 (axis : string) (k : Z) (e : Euler) :
  valid_axis axis -> canonical e -> k mod 4 = 0 -> turn_rotation axis k e = e.
Proof.
  intros Ha He E; rewrite <- turn_rotation_mod by assumption.
  apply Euler_eqb_eq.
  pose proof (for_all_turns (fun a r e =>
           negb (r =? 0) || Euler_eqb (turn_rotation a r e) e)
           ltac:(vm_compute; reflexivity) axis k e Ha He) as H.
  cbv beta in H; rewrite E in H |- *; exact H.
Qed.

Lemma turn_rotation_add (axis : string) (k k' : Z) (e : Euler) :
  valid_axis axis -> canonical e ->
  turn_rotation axis k (turn_rotation axis k' e) = turn_rotation axis (k + k') e.
Proof.
  intros Ha He.
  rewrite <- (turn_rotation_mod axis k), <- (turn_rotation_mod axis k'),
    <- (turn_rotation_mod axis (k + k')) by assumption.
  rewrite (Z.add_mod k k') by lia.
  pose proof (for_all_turns (fun a r' e =>
      forallb (fun r =>
        Euler_eqb (turn_rotation a r (turn_rotation a r' e))
                  (turn_rotation a ((r + r') mod 4) e)) residues)
      ltac:(vm_compute; reflexivity) axis k' e Ha He) as H.
  cbv beta in H; rewrite forallb_forall in H.
  apply Euler_eqb_eq, H.
  unfold residues; cbn [In]; pose proof (mod4_cases k); lia.
Qed.

(** The orientation after a turn is the pivot's rotation after the old
    orientation. *)
Lemma turn_rotation_orientation (axis : string) (k : Z) (e : Euler) :
  valid_axis axis -> canonical e ->
  makeRotationFromEuler (turn_rotation axis k e)
  = multiply (pivot_at axis k) (makeRotationFromEuler e).
Proof.
  intros Ha He.
  rewrite <- (turn_rotation_mod axis k), <- (pivot_at_mod axis k) by assumption.
  apply Matrix3_eqb_eq.
  exact (for_all_turns (fun a r e =>
      Matrix3_eqb (makeRotationFromEuler (turn_rotation a r e))
                  (multiply (pivot_at a r) (makeRotationFromEuler e)))
      ltac:(vm_compute; reflexivity) axis k e Ha He).
Qed.

(** ** The grid *)

Lemma In_grid_range (v : Z) : In v grid_range <-> -1 <= v <= 1.
Proof. unfold grid_range; cbn [In]; lia. Qed.

Lemma In_grid (p : Vector3) : In p grid <-> in_grid p.
Proof.
  unfold grid, in_grid; rewrite in_flat_map; split.
  - intros (gx & Hx & H); apply in_flat_map in H as (gy & Hy & H).
    apply in_map_iff in H as (gz & <- & Hz).
    apply In_grid_range in Hx, Hy, Hz; cbn [x y z]; lia.
  - intros (Hx & Hy & Hz); destruct p as [a b c]; cbn [x y z] in *.
    exists a; split; [now apply In_grid_range|].
    apply in_flat_map; exists b; split; [now apply In_grid_range|].
    apply in_map; now apply In_grid_range.
Qed.

Lemma Vector3_eq_dec (a b : Vector3) : {a = b} + {a <> b}.
Proof. decide equality; apply Z.eq_dec. Defined.

Lemma NoDup_grid : NoDup grid.
Proof.
  assert (E : nodup Vector3_eq_dec grid = grid) by (vm_compute; reflexivity).
  rewrite <- E; apply NoDup_nodup.
Qed.

(** ** One turn on the positions *)

Lemma in_slice_position (axis : string) (index : Z) (c : Cubie) :
  in_slice axis index c = in_slice axis index (cubie (position c) (euler 0 0 0)).
Proof. reflexivity. Qed.

Lemma turn_cubie_position (axis : string) (index k : Z) (c : Cubie) :
  position (turn_cubie axis index k c) = move_position axis index k (position c).
Proof.
  rewrite turn_cubie_parts; unfold move_position.
  rewrite <- in_slice_position; now destruct (in_slice axis index c).
Qed.

Lemma in_slice_turn (axis : string) (index k : Z) (p : Vector3) (e e' : Euler) :
  in_slice axis index (cubie (turn_position axis k p) e)
  = in_slice axis index (cubie p e').
Proof. unfold in_slice; cbn [position]; now rewrite turn_position_get. Qed.

Lemma move_position_in_grid (axis : string) (index k : Z) (p : Vector3) :
  in_grid p -> in_grid (move_position axis index k p).
Proof.
  intros Hp; unfold move_position.
  destruct (in_slice axis index _) eqn:E; trivial.
  destruct (valid_axis_dec axis) as [Ha|Ha].
  - now apply turn_position_in_grid.
  - now rewrite in_slice_invalid in E.
Qed.

Lemma move_position_add (axis : string) (index k k' : Z) (p : Vector3) :
  move_position axis index k (move_position axis index k' p)
  = move_position axis index (k + k') p.
Proof.
  unfold move_position.
  destruct (in_slice axis index (cubie p _)) eqn:E.
  - rewrite (in_slice_turn axis index k' p _ (euler 0 0 0)), E.
    apply turn_position_add.
    destruct (valid_axis_dec axis) as [Ha|Ha]; trivial.
    now rewrite in_slice_invalid in E.
  - now rewrite E.
Qed.

Lemma move_position_0 (axis : string) (index k : Z) (p : Vector3) :
  k mod 4 = 0 -> move_position axis index k p = p.
Proof.
  intros Hk; unfold move_position.
  destruct (in_slice axis index _) eqn:E; trivial.
  apply turn_position_0; trivial.
  destruct (valid_axis_dec axis) as [Ha|Ha]; trivial.
  now rewrite in_slice_invalid in E.
Qed.

(** A turn permutes the grid. *)
Lemma move_position_grid (axis : string) (index k : Z) :
  Permutation (map (move_position axis index k) grid) grid.
Proof.
  symmetry; apply NoDup_Permutation_bis.
  - apply NoDup_grid.
  - now rewrite length_map.
  - intros p Hp; apply in_map_iff.
    exists (move_position axis index (- k) p); split.
    + rewrite move_position_add; apply move_position_0.
      now replace (k + - k) with 0 by lia.
    + apply In_grid, move_position_in_grid; now apply In_grid.
Qed.

Lemma turn_positions (axis : string) (index k : Z) (cs : list Cubie) :
  Permutation (map position cs) grid ->
  Permutation (map position (map (turn_cubie axis index k) cs)) grid.
Proof.
  intros H; rewrite map_map.
  rewrite (map_ext _ (fun c => move_position axis index k (position c)))
    by (intros c; apply turn_cubie_position).
  rewrite <- map_map.
  etransitivity; [apply Permutation_map, H|apply move_position_grid].
Qed.

Lemma turn_canonical (axis : string) (index k : Z) (cs : list Cubie) :
  Forall (fun c => canonical (rotation c)) cs ->
  Forall (fun c => canonical (rotation c)) (map (turn_cubie axis index k) cs).
Proof.
  intros H; apply Forall_map; revert H; apply Forall_impl; intros c Hc.
  rewrite turn_cubie_parts; destruct (in_slice axis index c) eqn:E; trivial.
  cbn [rotation]; apply turn_rotation_canonical; trivial.
  destruct (valid_axis_dec axis) as [Ha|Ha]; trivial.
  now rewrite in_slice_invalid in E.
Qed.

(** ** [pivot.attach] and [finishRotation] on a state *)

Lemma applyMatrix_identity (p : Vector3) : applyMatrix identity p = p.
Proof.
  destruct p as [a b c]; unfold applyMatrix, identity;
    cbn [m11 m12 m13 m21 m22 m23 m31 m32 m33 x y z]; f_equal; lia.
Qed.

Lemma multiply_identity (m : Matrix3) : multiply identity m = m.
Proof.
  destruct m; unfold multiply, identity;
    cbn [m11 m12 m13 m21 m22 m23 m31 m32 m33]; f_equal; lia.
Qed.

(** Attaching to a pivot that has not turned yet leaves the cubie as it
    is, once its angles are in the form three.js writes. *)
Lemma attach_identity (c : Cubie) :
  canonical (rotation c) -> attach identity c = c.
Proof.
  intros Hc; destruct c as [p e]; unfold attach; cbn [position rotation] in *.
  now rewrite applyMatrix_identity, multiply_identity, Hc.
Qed.

Lemma forEach_fixed (active : list nat) (f : Cubie -> Cubie) (cs : list Cubie) :
  Forall (fun c => f c = c) cs -> forall n, forEach_from n active f cs = cs.
Proof.
  induction 1 as [|c cs Hc _ IH]; intros n; simpl; trivial.
  rewrite IH, Hc; now destruct (existsb (Nat.eqb n) active).
Qed.

Lemma forEach_attach_identity (active : list nat) (cs : list Cubie) :
  Forall (fun c => canonical (rotation c)) cs ->
  forEach_from 0 active (attach identity) cs = cs.
Proof.
  intros H; apply forEach_fixed; revert H; apply Forall_impl.
  exact attach_identity.
Qed.

Lemma set_rotation_twice (p : Pivot) (axis : string) (v w : Q) :
  set_rotation (set_rotation p axis v) axis w = set_rotation p axis w.
Proof.
  unfold set_rotation.
  destruct (String.eqb axis "x"); trivial.
  destruct (String.eqb axis "y"); trivial.
  destruct (String.eqb axis "z"); trivial.
Qed.

Lemma pivot_matrix_floor (axis : string) (v : Q) :
  pivot_matrix (set_rotation (pivot 0 0 0) axis v) = pivot_at axis (Qfloor v).
Proof.
  unfold pivot_at, pivot_matrix, set_rotation.
  destruct (String.eqb axis "x"); [cbn [px py pz]; now rewrite Qfloor_Z|].
  destruct (String.eqb axis "y"); [cbn [px py pz]; now rewrite Qfloor_Z|].
  destruct (String.eqb axis "z"); [cbn [px py pz]; now rewrite Qfloor_Z|].
  reflexivity.
Qed.

Lemma map_ext_Forall {A B : Type} (P : A -> Prop) (f g : A -> B) (l : list A) :
  Forall P l -> (forall a, P a -> f a = g a) -> map f l = map g l.
Proof.
  intros H Hfg; induction H as [|a l Ha _ IH]; simpl; trivial.
  now rewrite IH, Hfg.
Qed.

(** [finishRotation] on the layer [axis = index], the pivot standing at
    [v]: every cubie of the layer takes [Qfloor v] quarter turns. *)
Lemma finishRotation_turn (axis : string) (index : Z) (v : Q)
    (cs : list Cubie) (b : bool) (pd : option Animation) :
  Forall (fun c => canonical (rotation c)) cs ->
  finishRotation (set_rotation (pivot 0 0 0) axis v)
    (filter_from 0 (in_slice axis index) cs) axis (state cs b pd)
  = state (map (turn_cubie axis index (Qfloor v)) cs) false pd.
Proof.
  intros Hcs; unfold finishRotation; cbn [cubies pending].
  rewrite forEach_filter, pivot_matrix_floor; f_equal.
  apply (map_ext_Forall _ _ _ _ Hcs); intros c Hc.
  unfold turn_cubie; destruct (in_slice axis index c); trivial.
  now rewrite attach_identity.
Qed.

(** ** [rotateLayer] on a state *)

Lemma rotateLayer_animating (axis : string) (index direction : Z)
    (animate : bool) (duration now : Q) (st : State) :
  isAnimating st = true ->
  rotateLayer axis index direction animate duration now st = st.
Proof. intros H; unfold rotateLayer; now rewrite H. Qed.

Lemma rotateLayer_empty (axis : string) (index direction : Z)
    (animate : bool) (duration now : Q) (st : State) :
  filter (in_slice axis index) (cubies st) = [] ->
  rotateLayer axis index direction animate duration now st = st.
Proof.
  intros H; unfold rotateLayer.
  destruct (isAnimating st); trivial.
  now rewrite filter_from_length, H.
Qed.

Lemma length_eqb_0 {A : Type} (l : list A) :
  (List.length l =? 0)%nat = true -> l = [].
Proof. destruct l; [trivial|discriminate]. Qed.

(** The instant path, without any assumption on the state but that no
    animation runs. *)
Lemma rotateLayer_instant (axis : string) (index direction : Z)
    (duration now : Q) (st : State) :
  isAnimating st = false ->
  rotateLayer axis index direction false duration now st
  = state (map (turn_cubie axis index (targetRotation direction)) (cubies st))
          false (pending st).
Proof.
  intros H; unfold rotateLayer; rewrite H.
  destruct (List.length _ =? 0)%nat eqn:E.
  - rewrite filter_from_length in E; apply length_eqb_0 in E.
    unfold turn_cubie; rewrite filter_nil_map by assumption.
    destruct st; cbn in *; now subst.
  - unfold finishRotation; cbn [cubies pending].
    rewrite forEach_forEach, forEach_filter, pivot_matrix_floor, Qfloor_Z.
    reflexivity.
Qed.

(** The animated path: the layer goes under the pivot and the callback
    is left with the browser. *)
Lemma rotateLayer_animated (axis : string) (index direction : Z)
    (duration now : Q) (st : State) :
  isAnimating st = false ->
  Forall (fun c => canonical (rotation c)) (cubies st) ->
  filter (in_slice axis index) (cubies st) <> [] ->
  rotateLayer axis index direction true duration now st
  = state (cubies st) true
      (Some (animation (pivot 0 0 0)
               (filter_from 0 (in_slice axis index) (cubies st)) axis
               (targetRotation direction) now duration)).
Proof.
  intros H Hc Hne; unfold rotateLayer; rewrite H.
  destruct (List.length _ =? 0)%nat eqn:E.
  - rewrite filter_from_length in E; apply length_eqb_0 in E; contradiction.
  - cbn [cubies]; now rewrite forEach_attach_identity.
Qed.

(** ** The animation *)

Lemma final_progress (p : Q) : ~ (Qmin p 1 < 1)%Q -> (Qmin p 1 == 1)%Q.
Proof.
  intros H; apply Qle_antisym; [apply Q.le_min_r|now apply Qnot_lt_le].
Qed.

(** On the frame that ends the animation the eased angle is the target
    itself: the pivot stands at a whole number of quarter turns. *)
Lemma animateStep_final_angle (target : Z) (p : Q) :
  ~ (Qmin p 1 < 1)%Q ->
  Qfloor (inject_Z target * (1 - (1 - Qmin p 1) ^ 3)) = target.
Proof.
  intros H; apply final_progress in H.
  rewrite <- (Qfloor_Z target) at 2; apply Qfloor_comp.
  rewrite H; ring.
Qed.

Lemma div_lt_1 (e d : Q) : (0 < d)%Q -> (e / d < 1)%Q <-> (e < d)%Q.
Proof.
  intros Hd.
  assert (Hne : ~ (d == 0)%Q)
    by (intros E; rewrite E in Hd; now apply Qlt_irrefl in Hd).
  rewrite <- (Qmult_lt_r (e / d) 1 d Hd).
  rewrite Qmult_1_l, Qmult_comm, Qmult_div_r by assumption.
  reflexivity.
Qed.

(** A frame before the end is one at which less than [duration] has
    elapsed. *)
Lemma progress_lt_1 (time start duration : Q) :
  (0 < duration)%Q ->
  (Qmin ((time - start) / duration) 1 < 1)%Q <-> (time < start + duration)%Q.
Proof.
  intros Hd; rewrite Q.min_lt_iff, div_lt_1 by assumption.
  rewrite <- (Qplus_lt_l (time - start) duration start).
  assert (E : (time - start + start == time)%Q) by ring.
  rewrite E, (Qplus_comm duration start).
  split; [intros [H|H]; trivial; now apply Qlt_irrefl in H|now left].
Qed.

Lemma animateStep_idle (time : Q) (st : State) :
  pending st = None -> animateStep time st = st.
Proof. intros H; unfold animateStep; now rewrite H. Qed.

(** A frame before the end only moves the pivot. *)
Lemma animateStep_running (time : Q) (st : State) (a : Animation) :
  pending st = Some a ->
  (Qmin ((time - anim_startTime a) / anim_duration a) 1 < 1)%Q ->
  exists v,
    animateStep time st
    = state (cubies st) (isAnimating st)
        (Some (animation (set_rotation (anim_pivot a) (anim_axis a) v)
                 (anim_activeCubies a) (anim_axis a) (anim_targetRotation a)
                 (anim_startTime a) (anim_duration a))).
Proof.
  intros H Hlt; unfold animateStep; rewrite H.
  destruct (Qlt_le_dec _ 1) as [_|Hle]; [eexists; reflexivity|].
  exfalso; exact (Qlt_not_le _ _ Hlt Hle).
Qed.

(** The frame that ends the animation turns the layer by the target. *)
Lemma animateStep_final (time : Q) (st : State) (a : Animation) (index : Z) (q : Q) :
  pending st = Some a ->
  ~ (Qmin ((time - anim_startTime a) / anim_duration a) 1 < 1)%Q ->
  Forall (fun c => canonical (rotation c)) (cubies st) ->
  anim_activeCubies a = filter_from 0 (in_slice (anim_axis a) index) (cubies st) ->
  anim_pivot a = set_rotation (pivot 0 0 0) (anim_axis a) q ->
  animateStep time st
  = state (map (turn_cubie (anim_axis a) index (anim_targetRotation a))
               (cubies st)) false None.
Proof.
  intros H Hge Hc Hact Hpv; unfold animateStep; rewrite H.
  destruct (Qlt_le_dec _ 1) as [Hlt|_]; [contradiction|].
  rewrite Hact, Hpv, set_rotation_twice.
  rewrite finishRotation_turn by assumption.
  now rewrite animateStep_final_angle.
Qed.

(** ** What every reachable state satisfies *)

Lemma well_formed_solved : well_formed solved.
Proof.
  split; [|split]; [| |reflexivity].
  - unfold positions, solved; cbn [cubies].
    rewrite map_map; cbn [position]; now rewrite map_id.
  - unfold solved; cbn [cubies]; apply Forall_map, Forall_forall.
    intros p _; reflexivity.
Qed.

Lemma well_formed_at_rest (st : State) :
  well_formed st -> isAnimating st = false -> pending st = None.
Proof.
  intros (_ & _ & H) Hi; destruct (pending st); trivial.
  destruct H as [H _]; congruence.
Qed.

Lemma well_formed_turn (axis : string) (index k : Z) (cs : list Cubie) :
  Permutation (map position cs) grid ->
  Forall (fun c => canonical (rotation c)) cs ->
  well_formed (state (map (turn_cubie axis index k) cs) false None).
Proof.
  intros Hp Hc; split; [|split]; cbn [pending isAnimating cubies]; trivial.
  - now apply turn_positions.
  - now apply turn_canonical.
Qed.

Lemma set_rotation_zero (axis : string) :
  pivot 0 0 0 = set_rotation (pivot 0 0 0) axis 0.
Proof.
  unfold set_rotation.
  destruct (String.eqb axis "x"); trivial.
  destruct (String.eqb axis "y"); trivial.
  destruct (String.eqb axis "z"); trivial.
Qed.

Lemma rotateLayer_well_formed (axis : string) (index direction : Z)
    (animate : bool) (duration now : Q) (st : State) :
  well_formed st ->
  well_formed (rotateLayer axis index direction animate duration now st).
Proof.
  intros Hwf; destruct (isAnimating st) eqn:Hi;
    [now rewrite rotateLayer_animating|].
  pose proof (well_formed_at_rest st Hwf Hi) as Hpd.
  destruct Hwf as (Hp & Hc & Hpend); destruct animate.
  - destruct (filter (in_slice axis index) (cubies st)) eqn:E.
    + rewrite rotateLayer_empty by assumption; now repeat split.
    + rewrite rotateLayer_animated by (trivial; congruence).
      split; [|split]; cbn [pending isAnimating cubies anim_activeCubies
                               anim_axis anim_pivot]; trivial.
      split; trivial; exists index, 0%Q; split; trivial.
      apply set_rotation_zero.
  - rewrite rotateLayer_instant, Hpd by assumption.
    now apply well_formed_turn.
Qed.

Lemma animateStep_well_formed (time : Q) (st : State) :
  well_formed st -> well_formed (animateStep time st).
Proof.
  intros Hwf; destruct (pending st) as [a|] eqn:Hpd;
    [|now rewrite animateStep_idle].
  pose proof Hwf as (Hp & Hc & Hpend); rewrite Hpd in Hpend.
  destruct Hpend as (Hi & index & q & Hact & Hpv).
  destruct (Qlt_le_dec (Qmin ((time - anim_startTime a) / anim_duration a) 1) 1)
    as [Hlt|Hge].
  - destruct (animateStep_running time st a Hpd Hlt) as (v & ->).
    split; [|split]; cbn [pending isAnimating cubies anim_activeCubies
                             anim_axis anim_pivot]; trivial.
    split; trivial; exists index, v; split; trivial.
    now rewrite Hpv, set_rotation_twice.
  - rewrite (animateStep_final time st a index q) by
      (trivial; now apply Qle_not_lt).
    now apply well_formed_turn.
Qed.

Lemma step_well_formed (st : State) (e : Event) :
  well_formed st -> well_formed (step st e).
Proof.
  destruct e; cbn [step];
    auto using rotateLayer_well_formed, animateStep_well_formed.
Qed.

Lemma run_well_formed (events : list Event) (st : State) :
  well_formed st -> well_formed (run events st).
Proof.
  revert st; induction events as [|e events IH]; intros st H; cbn; trivial.
  apply IH, step_well_formed, H.
Qed.

Lemma reachable_well_formed (events : list Event) :
  well_formed (run events solved).
Proof. apply run_well_formed, well_formed_solved. Qed.

(** ** Turns compose *)

Lemma in_slice_valid (axis : string) (index : Z) (c : Cubie) :
  in_slice axis index c = true -> valid_axis axis.
Proof.
  intros E; destruct (valid_axis_dec axis) as [Ha|Ha]; trivial.
  now rewrite in_slice_invalid in E.
Qed.

Lemma turn_cubie_add (axis : string) (index k k' : Z) (c : Cubie) :
  canonical (rotation c) ->
  turn_cubie axis index k (turn_cubie axis index k' c)
  = turn_cubie axis index (k + k') c.
Proof.
  intros Hc; rewrite (turn_cubie_parts axis index k'),
    (turn_cubie_parts axis index (k + k')).
  destruct (in_slice axis index c) eqn:E.
  - pose proof (in_slice_valid _ _ _ E) as Ha.
    rewrite turn_cubie_parts, (in_slice_turn axis index k' _ _ (rotation c)).
    destruct c as [p e]; cbn [position rotation] in *; rewrite E.
    now rewrite turn_position_add, turn_rotation_add.
  - now rewrite turn_cubie_parts, E.
Qed.

Lemma turn_cubie_0 (axis : string) (index k : Z) (c : Cubie) :
  canonical (rotation c) -> k mod 4 = 0 -> turn_cubie axis index k c = c.
Proof.
  intros Hc Hk; rewrite turn_cubie_parts.
  destruct (in_slice axis index c) eqn:E; trivial.
  pose proof (in_slice_valid _ _ _ E) as Ha.
  destruct c as [p e]; cbn [position rotation] in *.
  now rewrite turn_position_0, turn_rotation_0.
Qed.

Lemma map_turn_add (axis : string) (index k k' : Z) (cs : list Cubie) :
  Forall (fun c => canonical (rotation c)) cs ->
  map (turn_cubie axis index k) (map (turn_cubie axis index k') cs)
  = map (turn_cubie axis index (k + k')) cs.
Proof.
  intros H; rewrite map_map.
  apply (map_ext_Forall _ _ _ _ H); intros c Hc; now apply turn_cubie_add.
Qed.

Lemma map_turn_0 (axis : string) (index k : Z) (cs : list Cubie) :
  Forall (fun c => canonical (rotation c)) cs -> k mod 4 = 0 ->
  map (turn_cubie axis index k) cs = cs.
Proof.
  intros H Hk; rewrite <- (map_id cs) at 2.
  apply (map_ext_Forall _ _ _ _ H); intros c Hc; now apply turn_cubie_0.
Qed.

(** The instant turn on a state at rest. *)
Lemma turn_at_rest (axis : string) (index direction : Z) (st : State) :
  well_formed st -> isAnimating st = false ->
  turn axis index direction st
  = state (map (turn_cubie axis index (targetRotation direction)) (cubies st))
          false None.
Proof.
  intros Hwf Hi; unfold turn; rewrite rotateLayer_instant by assumption.
  now rewrite (well_formed_at_rest st Hwf Hi).
Qed.

Lemma state_at_rest (st : State) :
  well_formed st -> isAnimating st = false -> st = state (cubies st) false None.
Proof.
  intros Hwf Hi; pose proof (well_formed_at_rest st Hwf Hi) as Hp.
  destruct st; cbn in *; now subst.
Qed.

(** ** Counting the cubies of a layer *)

Lemma Permutation_filter_length {A : Type} (p : A -> bool) (l l' : list A) :
  Permutation l l' -> List.length (filter p l) = List.length (filter p l').
Proof.
  induction 1 as [|a l l' _ IH|a b l|l l' l'' _ IH _ IH']; simpl; trivial.
  - destruct (p a); simpl; now rewrite IH.
  - destruct (p a), (p b); reflexivity.
  - now rewrite IH.
Qed.

Lemma filter_map_position (axis : string) (index : Z) (cs : list Cubie) :
  List.length (filter (in_slice axis index) cs)
  = List.length (filter (fun p => in_slice axis index (cubie p (euler 0 0 0)))
                        (map position cs)).
Proof.
  induction cs as [|c cs IH]; simpl; trivial.
  rewrite <- in_slice_position; destruct (in_slice axis index c); simpl;
    now rewrite IH.
Qed.

Lemma layer_length (axis : string) (index : Z) (st : State) :
  Permutation (positions st) grid -> valid_axis axis -> valid_index index ->
  List.length (layer axis index st) = 9%nat.
Proof.
  intros Hp Ha Hi; unfold layer; rewrite filter_map_position.
  rewrite (Permutation_filter_length _ _ _ Hp).
  destruct Ha as [->|[->| ->]]; destruct Hi as [->|[->| ->]];
    vm_compute; reflexivity.
Qed.

Lemma position_in_grid (st : State) (c : Cubie) :
  Permutation (positions st) grid -> In c (cubies st) -> in_grid (position c).
Proof.
  intros Hp Hc; apply In_grid, (Permutation_in _ Hp).
  unfold positions; now apply in_map.
Qed.

Lemma in_slice_index (axis : string) (index : Z) (c : Cubie) :
  in_slice axis index c = true -> in_grid (position c) -> valid_index index.
Proof.
  rewrite in_slice_get; unfold get, in_grid, valid_index.
  destruct (String.eqb axis "x"); [intros H%Z.eqb_eq; lia|].
  destruct (String.eqb axis "y"); [intros H%Z.eqb_eq; lia|].
  destruct (String.eqb axis "z"); [intros H%Z.eqb_eq; lia|discriminate].
Qed.

Lemma in_slice_unique (axis : string) (i j : Z) (c : Cubie) :
  in_slice axis i c = true -> in_slice axis j c = true -> i = j.
Proof.
  rewrite !in_slice_get; destruct (get (position c) axis); [|discriminate].
  intros H%Z.eqb_eq H'%Z.eqb_eq; congruence.
Qed.

Lemma in_slice_cover (axis : string) (c : Cubie) :
  valid_axis axis -> in_grid (position c) ->
  in_slice axis (-1) c = true \/ in_slice axis 0 c = true
  \/ in_slice axis 1 c = true.
Proof.
  intros Ha (Hx & Hy & Hz); rewrite !in_slice_get.
  destruct Ha as [->|[->| ->]]; cbn [get String.eqb Ascii.eqb Bool.eqb];
    rewrite !Z.eqb_eq; lia.
Qed.

(** An index off the grid selects nothing. *)
Lemma layer_off_grid (axis : string) (index : Z) (st : State) :
  Permutation (positions st) grid -> ~ valid_index index ->
  filter (in_slice axis index) (cubies st) = [].
Proof.
  intros Hp Hi.
  destruct (filter (in_slice axis index) (cubies st)) as [|c l] eqn:E; trivial.
  assert (Hc : In c (filter (in_slice axis index) (cubies st)))
    by (rewrite E; now left).
  apply filter_In in Hc as [Hc Hs]; exfalso; apply Hi.
  exact (in_slice_index _ _ _ Hs (position_in_grid st c Hp Hc)).
Qed.

(** ** An animated turn from its call to its last frame *)

Lemma run_frames_idle (times : list Q) (st : State) :
  pending st = None -> run (map Frame times) st = st.
Proof.
  intros H; induction times as [|t times IH]; cbn; trivial.
  now rewrite animateStep_idle.
Qed.

(** Whatever frames come in between, the frame on which [duration] has
    elapsed leaves the layer turned by the target. *)
Lemma frames_complete (axis : string) (index k : Z) (duration now time : Q)
    (cs : list Cubie) :
  Forall (fun c => canonical (rotation c)) cs ->
  (0 < duration)%Q -> (now + duration <= time)%Q ->
  forall (times : list Q) (v : Q),
    run (map Frame times ++ [Frame time])
        (state cs true
           (Some (animation (set_rotation (pivot 0 0 0) axis v)
                    (filter_from 0 (in_slice axis index) cs) axis k
                    now duration)))
    = state (map (turn_cubie axis index k) cs) false None.
Proof.
  intros Hc Hd Ht times; induction times as [|t times IH]; intros v;
    cbn [map app run fold_left step];
    set (a := animation (set_rotation (pivot 0 0 0) axis v)
                (filter_from 0 (in_slice axis index) cs) axis k now duration);
    set (st := state cs true (Some a)).
  - rewrite (animateStep_final time st a index v); trivial.
    cbn [anim_startTime anim_duration a].
    rewrite progress_lt_1 by assumption; now apply Qle_not_lt.
  - destruct (Qlt_le_dec (Qmin ((t - now) / duration) 1) 1) as [Hlt|Hge].
    + destruct (animateStep_running t st a eq_refl Hlt) as (v' & ->).
      cbn [cubies isAnimating anim_pivot anim_axis anim_activeCubies
             anim_targetRotation anim_startTime anim_duration st a].
      rewrite set_rotation_twice; apply IH.
    + rewrite (animateStep_final t st a index v); trivial;
        [|now apply Qle_not_lt].
      change (map Frame times ++ [Frame time])
        with (map Frame times ++ map Frame [time]).
      rewrite <- map_app; now apply run_frames_idle.
Qed.

Lemma animated_turn_runs (axis : string) (index direction : Z)
    (duration now time : Q) (times : list Q) (st : State) :
  well_formed st -> isAnimating st = false ->
  (0 < duration)%Q -> (now + duration <= time)%Q ->
  run (Call axis index direction true duration now
         :: map Frame times ++ [Frame time]) st
  = turn axis index direction st.
Proof.
  intros Hwf Hi Hd Ht; pose proof Hwf as (Hp & Hc & _).
  pose proof (well_formed_at_rest st Hwf Hi) as Hpd.
  cbn [run fold_left step].
  destruct (filter (in_slice axis index) (cubies st)) eqn:E.
  - unfold turn; rewrite !rotateLayer_empty by assumption.
    change (map Frame times ++ [Frame time])
      with (map Frame times ++ map Frame [time]).
    rewrite <- map_app; now apply run_frames_idle.
  - rewrite rotateLayer_animated by (trivial; congruence).
    rewrite turn_at_rest by assumption.
    rewrite (set_rotation_zero axis).
    now apply (frames_complete axis index (targetRotation direction)).
Qed.

(** ** Scramble *)

Lemma scramble_well_formed (rounds : nat) (random : nat -> Q) :
  forall (i : nat) (cube : State),
    well_formed cube ->
    Permutation (positions (Cube.scramble_rounds rounds i random cube)) grid.
Proof.
  induction rounds as [|rounds IH]; intros i cube Hwf; cbn [Cube.scramble_rounds].
  - now destruct Hwf.
  - apply IH, rotateLayer_well_formed, Hwf.
Qed.

End EngineFacts.

(** * The claims about the rotation engine *)

Module EngineSpec.
Import Three RubiksCube Engine EngineFacts.
Local Open Scope Z_scope.

Lemma two_turns_valid : Forall valid_event two_turns.
Proof.
  unfold two_turns; repeat apply Forall_cons; try apply Forall_nil;
    unfold valid_event, valid_axis, valid_index, valid_direction;
    try exact I; repeat split; auto.
Defined.

Lemma turn_state (axis : string) (index direction : Z) (cs : list Cubie) :
  turn axis index direction (state cs false None)
  = state (map (turn_cubie axis index (targetRotation direction)) cs) false None.
Proof. unfold turn; now rewrite rotateLayer_instant. Qed.

(** C1, as amended: a call of [rotateLayer] made while the engine is
    busy is dropped whatever [animate] is, the busy check being the first
    statement of the function; what is true of the instant path is that
    it leaves the busy flag as it found it. *)
Theorem busy_lock_drops_every_call (axis : string) (index direction : Z)
    (animate : bool) (duration now : Q) (st : State) :
  (isAnimating st = true ->
   rotateLayer axis index direction animate duration now st = st)
  /\ isAnimating (rotateLayer axis index direction false duration now st)
     = isAnimating st.
Proof.
  split; [apply rotateLayer_animating|].
  destruct (isAnimating st) eqn:Hi.
  - now rewrite rotateLayer_animating.
  - now rewrite rotateLayer_instant.
Qed.

Lemma busy_lock_drops_every_call_witness :
  rotateLayer "y" 1 1 false 300 0 (run mid_turn solved) = run mid_turn solved.
Proof.
  apply (proj1 (busy_lock_drops_every_call "y" 1 1 false 300 0
                  (run mid_turn solved))).
  reflexivity.
Defined.

(** C1 refuted as stated: with the layer [x = 1] still turning, the
    instant call [rotateLayer('y', 1, 1, false)] leaves every cubie where
    it is, although its layer is not empty and the turn, had it run,
    would have moved cubies. *)
Lemma instant_call_while_busy_counterexample :
  let busy := run mid_turn solved in
  isAnimating busy = true
  /\ layer "y" 1 busy <> []
  /\ cubies (rotateLayer "y" 1 1 false 300 0 busy) = cubies busy
  /\ map (turn_cubie "y" 1 (targetRotation 1)) (cubies busy) <> cubies busy.
Proof.
  cbv zeta; repeat split; try (vm_compute; reflexivity);
    vm_compute; discriminate.
Qed.




(** C3: after any sequence of completed turns from the solved cube the
    27 cubies stand on the 27 points of the grid, one on each: all
    coordinates are in [{-1, 0, 1}], no two positions are equal, and the
    next turn, or the 20 turns of a scramble, permute the positions
    again. *)
Theorem turns_permute_the_grid (events : list Event) :
  Forall valid_event events ->
  isAnimating (run events solved) = false ->
  let st := run events solved in
  List.length (cubies st) = 27%nat
  /\ Forall in_grid (positions st)
  /\ NoDup (positions st)
  /\ Permutation (positions st) grid
  /\ (forall e, valid_event e ->
        Permutation (positions (step st e)) (positions st))
  /\ (forall random,
        Permutation (positions (Cube.scramble_rounds 20 0 random st)) grid).
Proof.
  intros _ _ st.
  pose proof (reachable_well_formed events) as Hwf; fold st in Hwf.
  pose proof Hwf as (Hp & _).
  split; [|split; [|split; [|split; [|split]]]]; trivial.
  - unfold positions in Hp; apply Permutation_length in Hp.
    now rewrite length_map in Hp.
  - apply Forall_forall; intros p H; now apply In_grid, (Permutation_in _ Hp).
  - apply (Permutation_NoDup (Permutation_sym Hp)), NoDup_grid.
  - intros e _; destruct (step_well_formed st e Hwf) as (Hp' & _).
    now rewrite Hp, Hp'.
  - intros random; now apply scramble_well_formed.
Qed.

Lemma turns_permute_the_grid_witness :
  NoDup (positions (run two_turns solved))
  /\ Permutation (positions (run two_turns solved)) grid.
Proof.
  destruct (turns_permute_the_grid two_turns two_turns_valid eq_refl)
    as (_ & _ & H1 & H2 & _).
  split; assumption.
Defined.

(** C5: at rest, the layer of an axis and an index of [{-1, 0, 1}], and
    with it the array [activeCubies] of [rotateLayer], has exactly 9
    cubies; a cubie lies in the layer of one index only, and every cubie
    lies in one of the three layers of the axis. *)
Theorem layers_partition_the_cube (events : list Event) (axis : string) :
  Forall valid_event events ->
  isAnimating (run events solved) = false ->
  valid_axis axis ->
  let st := run events solved in
  (forall index, valid_index index ->
     List.length (layer axis index st) = 9%nat
     /\ List.length (filter_from 0 (in_slice axis index) (cubies st)) = 9%nat)
  /\ (forall i j c, In c (layer axis i st) -> In c (layer axis j st) -> i = j)
  /\ (forall c, In c (cubies st) ->
        In c (layer axis (-1) st) \/ In c (layer axis 0 st)
        \/ In c (layer axis 1 st)).
Proof.
  intros _ _ Ha st.
  destruct (reachable_well_formed events) as (Hp & _); fold st in Hp.
  split; [|split].
  - intros index Hi; rewrite filter_from_length; split; now apply layer_length.
  - unfold layer; intros i j c [_ Hi]%filter_In [_ Hj]%filter_In.
    exact (in_slice_unique _ _ _ _ Hi Hj).
  - intros c Hc; unfold layer; rewrite !filter_In.
    pose proof (in_slice_cover axis c Ha (position_in_grid st c Hp Hc)).
    tauto.
Qed.

Lemma layers_partition_the_cube_witness :
  List.length (layer "y" 1 (run two_turns solved)) = 9%nat.
Proof.
  apply (proj1 (layers_partition_the_cube two_turns "y" two_turns_valid
                  eq_refl (or_intror (or_introl eq_refl)))).
  unfold valid_index; auto.
Defined.

(** C6: from a state at rest, four instant calls
    [rotateLayer(axis, layerIndex, direction, false)] in a row bring
    every cubie, those of the layer among them, back to its position and
    to its orientation, and leave the engine at rest.  Positions and
    orientations are compared cubie by cubie, in the order of
    [this.cubies], the orientation of a cubie being the rotation matrix
    of its Euler angles. *)
Theorem four_turns_restore (events : list Event) (axis : string)
    (index direction : Z) :
  Forall valid_event events ->
  isAnimating (run events solved) = false ->
  valid_axis axis -> valid_index index -> valid_direction direction ->
  let st := run events solved in
  let st' :=
    turn axis index direction
      (turn axis index direction
         (turn axis index direction (turn axis index direction st))) in
  positions st' = positions st
  /\ map orientation (cubies st') = map orientation (cubies st)
  /\ isAnimating st' = false.
Proof.
  intros _ Hi _ _ _ st st'.
  pose proof (reachable_well_formed events) as Hwf; fold st in Hwf, Hi.
  pose proof Hwf as (_ & Hc & _).
  set (k := targetRotation direction).
  assert (E : st' = state (map (turn_cubie axis index (k + (k + (k + k))))
                               (cubies st)) false None).
  { unfold st'; rewrite (state_at_rest st Hwf Hi), !turn_state; fold k.
    cbn [cubies].
    rewrite (map_turn_add axis index k k (cubies st)) by assumption.
    rewrite (map_turn_add axis index k (k + k) (cubies st)) by assumption.
    now rewrite (map_turn_add axis index k (k + (k + k)) (cubies st))
      by assumption. }
  rewrite E, map_turn_0; unfold positions; cbn [cubies isAnimating]; auto.
  replace (k + (k + (k + k))) with (k * 4) by lia; apply Z.mod_mul; lia.
Qed.

Lemma four_turns_restore_witness :
  positions
    (turn "z" (-1) 1
       (turn "z" (-1) 1
          (turn "z" (-1) 1 (turn "z" (-1) 1 (run two_turns solved)))))
  = positions (run two_turns solved).
Proof.
  apply (four_turns_restore two_turns "z" (-1) 1 two_turns_valid eq_refl);
    unfold valid_axis, valid_index, valid_direction; auto.
Defined.

(** C7: from a state at rest, [rotateLayer('x', 1, +1, false)] followed
    by [rotateLayer('x', 1, -1, false)] leaves all 27 cubies with the
    positions and the orientations they had, and the engine at rest.
    Positions and orientations are compared cubie by cubie, in the order
    of [this.cubies], the orientation of a cubie being the rotation
    matrix of its Euler angles. *)
Theorem turn_then_inverse_restores (events : list Event) :
  Forall valid_event events ->
  isAnimating (run events solved) = false ->
  let st := run events solved in
  let st' := turn "x" 1 (-1) (turn "x" 1 1 st) in
  positions st' = positions st
  /\ map orientation (cubies st') = map orientation (cubies st)
  /\ List.length (cubies st') = 27%nat
  /\ isAnimating st' = false.
Proof.
  intros _ Hi st st'.
  pose proof (reachable_well_formed events) as Hwf; fold st in Hwf, Hi.
  pose proof Hwf as (Hp & Hc & _).
  assert (E : st' = state (map (turn_cubie "x" 1 (targetRotation (-1)
                                                  + targetRotation 1))
                               (cubies st)) false None).
  { unfold st'; rewrite (state_at_rest st Hwf Hi), !turn_state; cbn [cubies].
    now rewrite map_turn_add. }
  rewrite E, map_turn_0 by trivial.
  unfold positions; cbn [cubies isAnimating]; repeat split; trivial.
  apply Permutation_length in Hp; unfold positions in Hp.
  now rewrite length_map in Hp.
Qed.

Lemma turn_then_inverse_restores_witness :
  map orientation (cubies (turn "x" 1 (-1) (turn "x" 1 1 (run two_turns solved))))
  = map orientation (cubies (run two_turns solved)).
Proof.
  exact (proj1 (proj2
    (turn_then_inverse_restores two_turns two_turns_valid eq_refl))).
Defined.

(** C8: a call of [rotateLayer] with a layer index outside [{-1, 0, 1}],
    or made while an animation runs, returns the state it was given:
    no position and no angle changes; the function being total, nothing
    is raised. *)
Theorem degenerate_calls_change_nothing (events : list Event)
    (axis : string) (index direction : Z) (animate : bool) (duration now : Q) :
  Forall valid_event events ->
  ~ valid_index index \/ isAnimating (run events solved) = true ->
  rotateLayer axis index direction animate duration now (run events solved)
  = run events solved.
Proof.
  intros _ [Hi|Hb].
  - destruct (reachable_well_formed events) as (Hp & _).
    apply rotateLayer_empty; now apply layer_off_grid.
  - now apply rotateLayer_animating.
Qed.

Lemma degenerate_calls_change_nothing_witness :
  rotateLayer "x" 2 1 false 300 0 (run two_turns solved) = run two_turns solved.
Proof.
  apply (degenerate_calls_change_nothing two_turns "x" 2 1 false 300 0
           two_turns_valid).
  left; unfold valid_index; intros [H|[H|H]]; discriminate H.
Defined.

End EngineSpec.

(** * Properties of the gesture resolver *)

Module GestureFacts.
Import ThreeR Pointer Cube.
Local Open Scope R_scope.

(** ** Normalised vectors *)

Lemma or_one_pos (l : R) : 0 <= l -> 0 < or_one l.
Proof. intros H; unfold or_one; destruct (Req_dec_T l 0); lra. Qed.

Lemma length2_nonneg (v : Vector2) : 0 <= length2 v.
Proof. apply sqrt_pos. Qed.

Lemma length2_sqr (v : Vector2) :
  length2 v * length2 v = x2 v * x2 v + y2 v * y2 v.
Proof. unfold length2; apply sqrt_sqrt; nra. Qed.

Lemma length2_zero (v : Vector2) : length2 v = 0 -> x2 v = 0 /\ y2 v = 0.
Proof. intros H; pose proof (length2_sqr v) as E; rewrite H in E; nra. Qed.

Lemma dot2_normalize2 (d a : Vector2) :
  dot2 (normalize2 d) (normalize2 a)
  = dot2 d a / (or_one (length2 d) * or_one (length2 a)).
Proof.
  pose proof (or_one_pos _ (length2_nonneg d)).
  pose proof (or_one_pos _ (length2_nonneg a)).
  unfold dot2, normalize2; cbn [x2 y2]; field; lra.
Qed.

(** The square of the divisor of [normalize()], where it matters. *)
Lemma dot2_or_one (d a : Vector2) :
  let L := or_one (length2 d) * or_one (length2 a) in
  dot2 d a * dot2 d a <> 0 ->
  L * L = (x2 d * x2 d + y2 d * y2 d) * (x2 a * x2 a + y2 a * y2 a).
Proof.
  intros L Hne; unfold L, or_one.
  destruct (Req_dec_T (length2 d) 0) as [Ed|Ed];
    [apply length2_zero in Ed as [E1 E2]; exfalso; apply Hne;
     unfold dot2; rewrite E1, E2; ring|].
  destruct (Req_dec_T (length2 a) 0) as [Ea|Ea];
    [apply length2_zero in Ea as [E1 E2]; exfalso; apply Hne;
     unfold dot2; rewrite E1, E2; ring|].
  rewrite <- (length2_sqr d), <- (length2_sqr a); ring.
Qed.

(** The score against a bound, on the vectors before normalisation. *)
Lemma score_le (d a : Vector2) (c : R) :
  0 <= c ->
  dot2 d a * dot2 d a
  <= c * c * ((x2 d * x2 d + y2 d * y2 d) * (x2 a * x2 a + y2 a * y2 a)) ->
  Rabs (dot2 (normalize2 d) (normalize2 a)) <= c.
Proof.
  intros Hc H; rewrite dot2_normalize2.
  pose proof (or_one_pos _ (length2_nonneg d)) as Hd.
  pose proof (or_one_pos _ (length2_nonneg a)) as Ha.
  set (L := or_one (length2 d) * or_one (length2 a)) in *.
  assert (HL : 0 < L) by (unfold L; nra).
  unfold Rdiv; rewrite Rabs_mult, (Rabs_pos_eq (/ L))
    by (left; now apply Rinv_0_lt_compat).
  apply (Rmult_le_reg_r L); trivial.
  rewrite Rmult_assoc, Rinv_l, Rmult_1_r by lra.
  destruct (Req_dec_T (dot2 d a * dot2 d a) 0) as [E|E].
  - assert (dot2 d a = 0) by nra.
    replace (dot2 d a) with 0; rewrite Rabs_R0; nra.
  - pose proof (dot2_or_one d a E) as EL; fold L in EL.
    rewrite <- EL in H.
    apply Rsqr_incr_0_var; [|nra].
    rewrite <- Rsqr_abs; unfold Rsqr; nra.
Qed.

(** ** The candidate axes and the loop over them *)

Lemma possibleAxes_two (n : Vector3) :
  exists a b, possibleAxes n = [a; b].
Proof.
  unfold possibleAxes; destruct (Rgt_dec _ _); [|destruct (Rgt_dec _ _)];
    eexists; eexists; reflexivity.
Qed.

Lemma score_nonneg camera si dx dy axis : 0 <= score camera si dx dy axis.
Proof. apply Rabs_pos. Qed.

(** What the loop leaves in [maxDot] and [bestAxis]. *)
Lemma best_of_two camera si dx dy (a b : Vector3) :
  possibleAxes (worldNormal si) = [a; b] ->
  maxDot camera si dx dy
  = Rmax (score camera si dx dy a) (score camera si dx dy b)
  /\ (0 < maxDot camera si dx dy ->
      exists m, bestAxis camera si dx dy = Some m /\ (m = a \/ m = b)
                /\ score camera si dx dy m = maxDot camera si dx dy)
  /\ (0 < score camera si dx dy a ->
      score camera si dx dy b <= score camera si dx dy a ->
      bestAxis camera si dx dy = Some a).
Proof.
  intros E; unfold maxDot, bestAxis, best; rewrite E.
  cbn [fold_left]; unfold keep_best; cbn [snd fst].
  pose proof (score_nonneg camera si dx dy a) as Ha.
  pose proof (score_nonneg camera si dx dy b) as Hb.
  unfold Rmax; destruct (Rle_dec _ _) as [Hle|Hle];
    destruct (Rgt_dec (score camera si dx dy a) 0) as [H1|H1]; cbn [snd fst];
    destruct (Rgt_dec (score camera si dx dy b) _) as [H2|H2]; cbn [snd fst];
    repeat split; try lra; intros;
    try (eexists; split; [reflexivity|split; [auto|lra]]); try lra; trivial.
Qed.

(** ** The gate of [resolve] *)

Lemma resolve_below_threshold camera si dx dy :
  below_threshold dx dy = true -> resolve camera si dx dy = None.
Proof. intros H; unfold resolve; now rewrite H. Qed.

Lemma resolve_unconfident camera si dx dy :
  maxDot camera si dx dy <= 0.5 -> resolve camera si dx dy = None.
Proof.
  intros H; unfold resolve; destruct (below_threshold dx dy); trivial.
  destruct (Rgt_dec _ _); [lra|trivial].
Qed.

Lemma resolve_confident camera si dx dy :
  below_threshold dx dy = false -> 0.5 < maxDot camera si dx dy ->
  exists m, resolve camera si dx dy = Some m.
Proof.
  intros Hb H; unfold resolve; rewrite Hb.
  destruct (Rgt_dec _ _) as [_|Hn]; [|lra].
  destruct (possibleAxes_two (worldNormal si)) as (a & b & E).
  destruct (best_of_two camera si dx dy a b E) as (_ & Hbest & _).
  destruct Hbest as (m & -> & _); [lra|].
  eexists; reflexivity.
Qed.

(** ** The handlers *)

Lemma onMouseMove_declines camera now event st :
  (forall si, startIntersectRef st = Some si ->
     resolve camera si (movementX event) (movementY event) = None) ->
  onMouseMove camera now event st = (st, None).
Proof.
  intros H; unfold onMouseMove.
  destruct (isDraggingRef st); trivial.
  destruct (startIntersectRef st) as [si|]; trivial.
  destruct (rubiksCubeRef st) as [cube|]; trivial.
  destruct (RubiksCube.isAnimating cube); trivial.
  now rewrite H.
Qed.

Lemma dispatch_declined camera (samples : list (Q * MouseEvent)) st :
  (forall s, In s samples ->
     onMouseMove camera (fst s) (snd s) st = (st, None)) ->
  dispatch camera (map (fun s => MouseMove (fst s) (snd s)) samples ++ [MouseUp]) st
  = (onMouseUp st, []).
Proof.
  induction samples as [|s samples IH]; intros H; cbn; trivial.
  rewrite (H s (or_introl eq_refl)), IH; trivial.
  intros s' Hs'; apply H; now right.
Qed.

(** ** Vectors already of length one *)

Lemma or_one_1 : or_one 1 = 1.
Proof. unfold or_one; destruct (Req_dec_T 1 0); lra. Qed.

Lemma normalize_unit (v : Vector3) :
  x v * x v + y v * y v + z v * z v = 1 -> normalize v = v.
Proof.
  intros H; destruct v as [a b c]; unfold normalize, length; cbn [x y z] in *.
  rewrite H, sqrt_1, or_one_1; f_equal; field.
Qed.

Lemma normalize2_x (a b : R) :
  0 < a -> b = 0 -> normalize2 (vec2 a b) = vec2 1 0.
Proof.
  intros Ha ->; unfold normalize2, length2; cbn [x2 y2].
  replace (a * a + 0 * 0) with (a * a) by ring.
  rewrite sqrt_square by lra.
  unfold or_one; destruct (Req_dec_T a 0); [lra|f_equal; field; lra].
Qed.

Lemma normalize2_y (a b : R) :
  0 < a -> b = 0 -> normalize2 (vec2 b a) = vec2 0 1.
Proof.
  intros Ha ->; unfold normalize2, length2; cbn [x2 y2].
  replace (0 * 0 + a * a) with (a * a) by ring.
  rewrite sqrt_square by lra.
  unfold or_one; destruct (Req_dec_T a 0); [lra|f_equal; field; lra].
Qed.

Lemma normalize2_diagonal (a : R) :
  0 < a -> normalize2 (vec2 a a) = vec2 (1 / sqrt 2) (1 / sqrt 2).
Proof.
  intros Ha; unfold normalize2, length2; cbn [x2 y2].
  replace (a * a + a * a) with (2 * (a * a)) by ring.
  rewrite sqrt_mult, sqrt_square by nra.
  pose proof (sqrt_lt_R0 2 ltac:(lra)) as H2.
  unfold or_one; destruct (Req_dec_T (sqrt 2 * a) 0); [nra|].
  f_equal; field; lra.
Qed.

Lemma cos_PI4_bounds : 0.5 < cos (PI / 4) < 1.
Proof.
  rewrite cos_PI4.
  pose proof (sqrt_lt_R0 2 ltac:(lra)) as H0.
  pose proof (sqrt_sqrt 2 ltac:(lra)) as H2.
  assert (1 < sqrt 2 < 2) by nra.
  split.
  - apply (Rmult_lt_reg_r (sqrt 2)); trivial.
    unfold Rdiv; rewrite Rmult_assoc, Rinv_l; lra.
  - apply (Rmult_lt_reg_r (sqrt 2)); trivial.
    unfold Rdiv; rewrite Rmult_assoc, Rinv_l; lra.
Qed.

(** ** The sample pick *)

Lemma worldNormal_front : worldNormal front_pick = vec3 0 0 1.
Proof.
  unfold worldNormal, front_pick, applyMatrix3;
    cbn [normalMatrix face_normal n11 n12 n13 n21 n22 n23 n31 n32 n33 x y z].
  replace (vec3 (1 * 0 + 0 * 0 + 0 * 1) (0 * 0 + 1 * 0 + 0 * 1)
                (0 * 0 + 0 * 0 + 1 * 1)) with (vec3 0 0 1)
    by (f_equal; ring).
  apply normalize_unit; cbn [x y z]; ring.
Qed.

Lemma possibleAxes_front :
  possibleAxes (worldNormal front_pick) = [vec3 1 0 0; vec3 0 1 0].
Proof.
  rewrite worldNormal_front; unfold possibleAxes; cbn [x y z].
  rewrite Rabs_R0.
  destruct (Rgt_dec 0 0.9); [lra|trivial].
Qed.

Lemma axisVec2D_front_x :
  normalize2 (axisVec2D front_camera front_pick (vec3 1 0 0)) = vec2 1 0.
Proof.
  unfold axisVec2D, origin, front_camera, front_pick, add; cbn [point x y z].
  apply normalize2_x; lra.
Qed.

Lemma axisVec2D_front_y :
  normalize2 (axisVec2D front_camera front_pick (vec3 0 1 0)) = vec2 0 1.
Proof.
  unfold axisVec2D, origin, front_camera, front_pick, add; cbn [point x y z].
  apply normalize2_y; lra.
Qed.

Lemma dragVec_diagonal :
  dragVec 2 (-2) = vec2 (1 / sqrt 2) (1 / sqrt 2).
Proof.
  unfold dragVec; replace (- IZR (-2)) with 2 by lra.
  apply normalize2_diagonal; lra.
Qed.

(** The drag [(2, -2)], up and to the right, on the front pick: at 45
    degrees to the screen directions of both candidates. *)
Lemma front_diagonal_at_45 : at_45_degrees front_camera front_pick 2 (-2).
Proof.
  intros axis; rewrite possibleAxes_front; intros [<-|[<-|[]]];
    rewrite dragVec_diagonal, ?axisVec2D_front_x, ?axisVec2D_front_y, cos_PI4;
    unfold dot2; cbn [x2 y2]; ring.
Qed.

(** ** A drag at 45 degrees to both candidates *)

Lemma at_45_best camera si dx dy (a b : Vector3) :
  possibleAxes (worldNormal si) = [a; b] ->
  at_45_degrees camera si dx dy ->
  maxDot camera si dx dy = cos (PI / 4)
  /\ bestAxis camera si dx dy = Some a.
Proof.
  intros E H; pose proof cos_PI4_bounds as Hc.
  assert (Ha : score camera si dx dy a = cos (PI / 4))
    by (unfold score; rewrite H, Rabs_pos_eq; [trivial|lra|rewrite E; now left]).
  assert (Hb : score camera si dx dy b = cos (PI / 4))
    by (unfold score; rewrite H, Rabs_pos_eq;
        [trivial|lra|rewrite E; right; now left]).
  destruct (best_of_two camera si dx dy a b E) as (Hmax & _ & Hbest).
  split.
  - rewrite Hmax, Ha, Hb; unfold Rmax; destruct (Rle_dec _ _); trivial.
  - apply Hbest; lra.
Qed.

Lemma Rabs_minus_1 : Rabs (-1) = 1.
Proof. unfold Rabs; destruct (Rcase_abs (-1)); lra. Qed.

(** The sample drag resolves to [rotateLayer('y', 0, 1)]. *)
Lemma front_diagonal_resolve :
  resolve front_camera front_pick 2 (-2) = Some (move "y" 0 1).
Proof.
  pose proof cos_PI4_bounds as Hc.
  destruct (at_45_best front_camera front_pick 2 (-2) _ _ possibleAxes_front
              front_diagonal_at_45) as (Hmax & Hbest).
  unfold resolve.
  change (below_threshold 2 (-2)) with false; cbv iota.
  rewrite Hmax, Hbest; destruct (Rgt_dec _ _) as [_|Hn]; [|lra].
  cbv zeta; rewrite worldNormal_front.
  replace (crossVectors (vec3 1 0 0) (vec3 0 0 1)) with (vec3 0 (-1) 0)
    by (unfold crossVectors; cbn [x y z]; f_equal; ring).
  replace (crossVectors (vec3 0 0 1) (vec3 1 0 0)) with (vec3 0 1 0)
    by (unfold crossVectors; cbn [x y z]; f_equal; ring).
  rewrite !normalize_unit by (cbn [x y z]; ring).
  assert (En : axis_name (vec3 0 (-1) 0) = "y"%string).
  { unfold axis_name; cbn [y z]; rewrite Rabs_minus_1, Rabs_R0.
    destruct (Rgt_dec 1 0.9); [|lra]; destruct (Rgt_dec 0 0.9); [lra|trivial]. }
  rewrite En, (front_diagonal_at_45 (vec3 1 0 0))
    by (rewrite possibleAxes_front; now left).
  destruct (Rgt_dec (cos (PI / 4)) 0) as [_|Hn]; [|lra].
  unfold unit, dot; cbn [String.eqb Ascii.eqb Bool.eqb x y z].
  destruct (Rlt_dec _ 0) as [Hl|_]; [lra|reflexivity].
Qed.

(** ** A drag that no candidate explains *)

(** Under the oblique camera the drag [(-2, -5)] scores less than 0.4
    against both candidates. *)
Lemma oblique_drag_unconfident :
  maxDot oblique_camera front_pick (-2) (-5) <= 0.5.
Proof.
  destruct (best_of_two oblique_camera front_pick (-2) (-5) _ _
              possibleAxes_front) as (-> & _).
  apply Rmax_lub; unfold score, dragVec; apply score_le; try lra;
    unfold axisVec2D, origin, oblique_camera, front_pick, add, dot2;
    cbn [point x y z x2 y2]; lra.
Qed.

(** ** The two copies of the handler *)

Lemma cube_resolve camera now event (st : Refs) si cube :
  isDraggingRef st = true -> startIntersectRef st = Some si ->
  rubiksCubeRef st = Some cube -> RubiksCube.isAnimating cube = false ->
  snd (onMouseMove camera now event st)
  = resolve camera si (movementX event) (movementY event).
Proof.
  intros Hd Hs Hc Ha; unfold onMouseMove; rewrite Hd, Hs, Hc, Ha.
  now destruct (resolve _ _ _ _).
Qed.

(** [control.js], once its own ray cast has hit the cube, computes what
    [resolve] computes. *)
Lemma control_resolve (CubeJs : Type) (isAn : CubeJs -> bool)
    (rot : string -> Z -> Z -> CubeJs -> CubeJs) camera event
    (st : Control.Globals CubeJs) si intersect :
  Control.isDragging CubeJs st = true ->
  Control.startIntersect CubeJs st = Some si ->
  isAn (Control.rubiksCube CubeJs st) = false ->
  raycast event = Some intersect ->
  snd (Control.onMouseMove CubeJs isAn rot camera event st)
  = resolve camera si (movementX event) (movementY event).
Proof.
  intros Hd Hs Ha Hr; unfold Control.onMouseMove, Control.getIntersect.
  rewrite Hd, Hs, Ha, Hr; unfold resolve, below_threshold.
  destruct (_ && _)%bool; [reflexivity|].
  cbv zeta.
  change (snd (fold_left _ _ (None, 0)))
    with (maxDot camera si (movementX event) (movementY event)).
  change (fst (fold_left _ _ (None, 0)))
    with (bestAxis camera si (movementX event) (movementY event)).
  destruct (Rgt_dec _ 0.5); [|reflexivity].
  destruct (bestAxis _ _ _ _); reflexivity.
Qed.

Lemma control_off_cube (CubeJs : Type) (isAn : CubeJs -> bool)
    (rot : string -> Z -> Z -> CubeJs -> CubeJs) camera event
    (st : Control.Globals CubeJs) :
  raycast event = None ->
  Control.onMouseMove CubeJs isAn rot camera event st = (st, None).
Proof.
  intros Hr; unfold Control.onMouseMove, Control.getIntersect; rewrite Hr.
  destruct (Control.isDragging CubeJs st); trivial.
  destruct (Control.startIntersect CubeJs st); trivial.
  destruct (isAn _); trivial.
Qed.

Lemma onMouseDown_cube (down : MouseEvent) (st : Refs) :
  rubiksCubeRef (onMouseDown down st) = rubiksCubeRef st.
Proof.
  unfold onMouseDown, getIntersect.
  destruct (negb _); trivial.
  destruct (rubiksCubeRef st) as [cube|] eqn:E; trivial.
  destruct (RubiksCube.isAnimating cube); trivial.
  destruct (raycast down); cbn [rubiksCubeRef]; auto.
Qed.

End GestureFacts.

(** * The claims about the gesture resolver *)

Module GestureSpec.
Import ThreeR Pointer Cube GestureFacts.
Local Open Scope R_scope.

(** C4, as amended: a drag at 45 degrees to the screen directions of
    both candidate axes scores [cos 45 = 0.707...], which is above the
    gate of 0.5: outside the dead zone of 2 pixels the resolver does emit
    a move, with the first candidate as the axis of movement; it emits
    none only for a sample inside the dead zone. *)
Theorem drag_at_45_degrees_is_resolved (camera : Camera) (si : Intersection)
    (dx dy : Z) :
  at_45_degrees camera si dx dy ->
  maxDot camera si dx dy = cos (PI / 4)
  /\ 0.5 < maxDot camera si dx dy
  /\ bestAxis camera si dx dy = hd_error (possibleAxes (worldNormal si))
  /\ (below_threshold dx dy = false ->
      exists m,
        resolve camera si dx dy = Some m
        /\ forall now event st cube,
             isDraggingRef st = true -> startIntersectRef st = Some si ->
             rubiksCubeRef st = Some cube ->
             RubiksCube.isAnimating cube = false ->
             movementX event = dx -> movementY event = dy ->
             snd (onMouseMove camera now event st) = Some m)
  /\ (below_threshold dx dy = true -> resolve camera si dx dy = None).
Proof.
  intros H; destruct (possibleAxes_two (worldNormal si)) as (a & b & E).
  destruct (at_45_best camera si dx dy a b E H) as (Hmax & Hbest).
  pose proof cos_PI4_bounds as Hc.
  split; [exact Hmax|]. split; [lra|]. split; [now rewrite E|]. split.
  - intros Hb; destruct (resolve_confident camera si dx dy Hb) as (m & Hm);
      [lra|].
    exists m; split; trivial.
    intros now event st cube Hd Hs Hcube Ha <- <-.
    now rewrite (cube_resolve camera now event st si cube).
  - apply resolve_below_threshold.
Qed.

Lemma drag_at_45_degrees_is_resolved_witness :
  maxDot front_camera front_pick 2 (-2) = cos (PI / 4)
  /\ 0.5 < maxDot front_camera front_pick 2 (-2).
Proof.
  destruct (drag_at_45_degrees_is_resolved front_camera front_pick 2 (-2)
              front_diagonal_at_45) as (H1 & H2 & _).
  split; assumption.
Defined.

(** C4 refuted as stated: on the front face seen straight on, the drag
    of 2 pixels right and 2 pixels up stands at 45 degrees to the screen
    directions of the [x] and of the [y] axis, and [onMouseMove] asks for
    [rotateLayer('y', 0, 1)]. *)
Lemma diagonal_drag_counterexample :
  at_45_degrees front_camera front_pick 2 (-2)
  /\ snd (onMouseMove front_camera 0 (mouseEvent 0 2 (-2) None) dragging_front)
     = Some (move "y" 0 1).
Proof.
  split; [exact front_diagonal_at_45|].
  rewrite (cube_resolve _ _ _ dragging_front front_pick RubiksCube.solved);
    try reflexivity.
  exact front_diagonal_resolve.
Qed.

(** C9: a sample whose winning score is at most 0.5 leaves the refs as
    they are and emits nothing; a gesture all of whose samples are such
    ends, at pointer-up, with no move emitted, the drag closed and the
    cube as it was.  The handlers are total: nothing is raised. *)
Theorem unconfident_gesture_emits_nothing (camera : Camera)
    (down : MouseEvent) (samples : list (Q * MouseEvent)) (st : Refs) :
  (forall s si, In s samples ->
     startIntersectRef (onMouseDown down st) = Some si ->
     maxDot camera si (movementX (snd s)) (movementY (snd s)) <= 0.5) ->
  (forall s, In s samples ->
     onMouseMove camera (fst s) (snd s) (onMouseDown down st)
     = (onMouseDown down st, None))
  /\ dispatch camera (gesture down samples) st
     = (onMouseUp (onMouseDown down st), [])
  /\ isDraggingRef (fst (dispatch camera (gesture down samples) st)) = false
  /\ rubiksCubeRef (fst (dispatch camera (gesture down samples) st))
     = rubiksCubeRef st.
Proof.
  intros H.
  assert (Hm : forall s, In s samples ->
     onMouseMove camera (fst s) (snd s) (onMouseDown down st)
     = (onMouseDown down st, None)).
  { intros s Hs; apply onMouseMove_declines; intros si Hsi.
    apply resolve_unconfident; now apply (H s si). }
  assert (Hg : dispatch camera (gesture down samples) st
               = (onMouseUp (onMouseDown down st), []))
    by (unfold gesture; cbn [dispatch]; now apply dispatch_declined).
  split; [exact Hm|]. split; [exact Hg|]. rewrite Hg; cbn [fst]; split.
  - reflexivity.
  - unfold onMouseUp; cbn [rubiksCubeRef]; apply onMouseDown_cube.
Qed.

Lemma unconfident_gesture_emits_nothing_witness :
  dispatch oblique_camera
    (gesture (mouseEvent 0 0 0 (Some front_pick))
             [(0%Q, mouseEvent 0 (-2) (-5) None)]) mounted
  = (onMouseUp (onMouseDown (mouseEvent 0 0 0 (Some front_pick)) mounted), []).
Proof.
  apply (unconfident_gesture_emits_nothing oblique_camera
           (mouseEvent 0 0 0 (Some front_pick))
           [(0%Q, mouseEvent 0 (-2) (-5) None)] mounted).
  intros s si [<-|[]] Hsi.
  change (Some front_pick = Some si) in Hsi.
  injection Hsi as <-; exact oblique_drag_unconfident.
Defined.

(** C10, as amended: on the same pick, camera and drag, the handler of
    [Cube.jsx] and the one of [control.js] ask for the same move, or both
    for none, as long as the ray through the pointer still hits a cubie;
    when it hits none, [control.js] returns before it looks at the drag
    and asks for nothing, whatever [Cube.jsx] does. *)
Theorem handlers_agree_over_the_cube (CubeJs : Type) (isAn : CubeJs -> bool)
    (rot : string -> Z -> Z -> CubeJs -> CubeJs) (camera : Camera) (now : Q)
    (event : MouseEvent) (stC : Refs) (stK : Control.Globals CubeJs)
    (cube : RubiksCube.State) :
  isDraggingRef stC = Control.isDragging CubeJs stK ->
  startIntersectRef stC = Control.startIntersect CubeJs stK ->
  rubiksCubeRef stC = Some cube ->
  RubiksCube.isAnimating cube = isAn (Control.rubiksCube CubeJs stK) ->
  (raycast event <> None ->
   snd (onMouseMove camera now event stC)
   = snd (Control.onMouseMove CubeJs isAn rot camera event stK))
  /\ (raycast event = None ->
      snd (Control.onMouseMove CubeJs isAn rot camera event stK) = None).
Proof.
  intros Hd Hs Hc Ha; split.
  - intros Hr; destruct (raycast event) as [intersect|] eqn:Er; [|congruence].
    destruct (isDraggingRef stC) eqn:Ed.
    + destruct (startIntersectRef stC) as [si|] eqn:Es.
      * destruct (RubiksCube.isAnimating cube) eqn:Ean.
        -- unfold onMouseMove, Control.onMouseMove.
           now rewrite Ed, Es, Hc, Ean, <- Hd, <- Hs, <- Ha.
        -- rewrite (cube_resolve camera now event stC si cube),
             (control_resolve CubeJs isAn rot camera event stK si intersect);
             auto.
      * unfold onMouseMove, Control.onMouseMove.
        now rewrite Ed, Es, <- Hd, <- Hs.
    + unfold onMouseMove, Control.onMouseMove; now rewrite Ed, <- Hd.
  - intros Hr; now rewrite control_off_cube.
Qed.

Lemma handlers_agree_over_the_cube_witness :
  snd (onMouseMove front_camera 0 (mouseEvent 0 2 (-2) (Some front_pick))
         dragging_front)
  = snd (Control.onMouseMove RubiksCube.State RubiksCube.isAnimating
           Control.sample_rotateLayer front_camera
           (mouseEvent 0 2 (-2) (Some front_pick)) Control.dragging_front).
Proof.
  apply (handlers_agree_over_the_cube RubiksCube.State RubiksCube.isAnimating
           Control.sample_rotateLayer front_camera 0
           (mouseEvent 0 2 (-2) (Some front_pick)) dragging_front
           Control.dragging_front RubiksCube.solved);
    try reflexivity.
  discriminate.
Defined.

(** C10 refuted as stated: with the pick, the camera and the drag of the
    sample, the pointer having left the cube, [Cube.jsx] asks for
    [rotateLayer('y', 0, 1)] and [control.js] for nothing. *)
Lemma handlers_differ_off_the_cube_counterexample :
  let event := mouseEvent 0 2 (-2) None in
  snd (onMouseMove front_camera 0 event dragging_front) = Some (move "y" 0 1)
  /\ snd (Control.onMouseMove RubiksCube.State RubiksCube.isAnimating
            Control.sample_rotateLayer front_camera event
            Control.dragging_front) = None.
Proof.
  cbv zeta; split.
  - rewrite (cube_resolve _ _ _ dragging_front front_pick RubiksCube.solved);
      try reflexivity.
    exact front_diagonal_resolve.
  - now rewrite control_off_cube.
Qed.

End GestureSpec.

(** * More on the rotation engine *)

Module EngineMore.
Import Three RubiksCube Engine EngineFacts Materials Moves.
Local Open Scope Z_scope.

(** ** What one event does to the array of cubies *)

Lemma step_cubies (st : State) (e : Event) :
  well_formed st ->
  cubies (step st e) = cubies st
  \/ exists axis index k,
       cubies (step st e) = map (turn_cubie axis index k) (cubies st).
Proof.
  intros Hwf; pose proof Hwf as (Hp & Hc & Hpend).
  destruct e as [axis index direction animate duration now|time]; cbn [step].
  - destruct (isAnimating st) eqn:Hi; [left; now rewrite rotateLayer_animating|].
    destruct animate.
    + left; destruct (filter (in_slice axis index) (cubies st)) eqn:E.
      * now rewrite rotateLayer_empty.
      * now rewrite rotateLayer_animated by (trivial; congruence).
    + right; exists axis, index, (targetRotation direction).
      now rewrite rotateLayer_instant.
  - destruct (pending st) as [a|] eqn:Hpd; [|left; now rewrite animateStep_idle].
    destruct Hpend as (Hi & index & q & Hact & Hpv).
    destruct (Qlt_le_dec (Qmin ((time - anim_startTime a) / anim_duration a) 1) 1)
      as [Hlt|Hge].
    + left; now destruct (animateStep_running time st a Hpd Hlt) as (v & ->).
    + right; exists (anim_axis a), index, (anim_targetRotation a).
      rewrite (animateStep_final time st a index q); trivial.
      now apply Qle_not_lt.
Qed.

(** A property of single cubies that every turn keeps holds of all
    cubies of every reachable state. *)
Lemma reachable_cubies (P : Vector3 * Cubie -> Prop) :
  (forall home, In home grid -> P (home, cubie home (euler 0 0 0))) ->
  (forall home c axis index k, canonical (rotation c) ->
     P (home, c) -> P (home, turn_cubie axis index k c)) ->
  forall events, Forall P (with_home (run events solved)).
Proof.
  intros H0 Hturn events.
  assert (Hgen : forall st, well_formed st -> Forall P (with_home st) ->
                            Forall P (with_home (run events st))).
  { induction events as [|e events IH]; intros st Hwf HP; cbn; trivial.
    apply IH; [now apply step_well_formed|].
    destruct Hwf as (Hp & Hc & Hpend).
    destruct (step_cubies st e (conj Hp (conj Hc Hpend)))
      as [E|(axis & index & k & E)]; unfold with_home in *; rewrite E; trivial.
    clear E Hp Hpend; revert HP Hc; generalize grid as homes.
    induction (cubies st) as [|c cs IHc]; intros [|home homes] HP Hc;
      cbn; trivial.
    inversion HP; inversion Hc; subst; constructor; auto. }
  apply Hgen; [apply well_formed_solved|].
  unfold with_home, solved; cbn [cubies].
  induction grid as [|home homes IH]; cbn; constructor.
  - apply H0; now left.
  - apply IH; intros h Hh; apply H0; now right.
Qed.

(** ** The stickers *)

Lemma applyMatrix_multiply (a b : Matrix3) (v : Vector3) :
  applyMatrix (multiply a b) v = applyMatrix a (applyMatrix b v).
Proof.
  destruct a, b, v; unfold applyMatrix, multiply;
    cbn [m11 m12 m13 m21 m22 m23 m31 m32 m33 x y z]; f_equal; ring.
Qed.

(** The matrix of Euler angles at quarter turns keeps the dot product. *)
Lemma facing_dot (c : Cubie) (u v : Vector3) :
  canonical (rotation c) -> dot (facing c u) (facing c v) = dot u v.
Proof.
  intros Hc; apply canonical_candidate in Hc; unfold facing.
  destruct u as [u1 u2 u3], v as [v1 v2 v3].
  unfold candidates, angles in Hc; cbn [flat_map map app In] in Hc.
  repeat (destruct Hc as [<-|Hc];
          [match goal with |- context [makeRotationFromEuler ?e] =>
             let m := eval vm_compute in (makeRotationFromEuler e) in
             change (makeRotationFromEuler e) with m
           end;
           unfold dot, applyMatrix;
           cbn [m11 m12 m13 m21 m22 m23 m31 m32 m33 x y z]; ring|]).
  destruct Hc.
Qed.

Lemma turn_cubie_canonical (axis : string) (index k : Z) (c : Cubie) :
  canonical (rotation c) -> canonical (rotation (turn_cubie axis index k c)).
Proof.
  intros Hc; rewrite turn_cubie_parts.
  destruct (in_slice axis index c) eqn:E; trivial.
  cbn [rotation]; apply turn_rotation_canonical; trivial.
  exact (in_slice_valid _ _ _ E).
Qed.

Lemma turn_cubie_carried (home : Vector3) (c : Cubie) (axis : string)
    (index k : Z) :
  canonical (rotation c) -> carried (home, c) ->
  carried (home, turn_cubie axis index k c).
Proof.
  unfold carried, facing; cbn [fst snd]; intros Hc H.
  rewrite turn_cubie_parts; destruct (in_slice axis index c) eqn:E; trivial.
  pose proof (in_slice_valid _ _ _ E) as Ha.
  cbn [position rotation].
  rewrite turn_rotation_orientation, applyMatrix_multiply, <- H by assumption.
  unfold turn_position; now rewrite applyMatrix_identity.
Qed.

Lemma reachable_carried (events : list Event) :
  Forall (fun hc => canonical (rotation (snd hc)) /\ carried hc)
         (with_home (run events solved)).
Proof.
  apply (reachable_cubies
           (fun hc => canonical (rotation (snd hc)) /\ carried hc)).
  - intros home _; split; [reflexivity|].
    unfold carried, facing; cbn [fst snd position rotation].
    change (makeRotationFromEuler (euler 0 0 0)) with identity.
    now rewrite applyMatrix_identity.
  - intros home c axis index k Hc [_ H]; cbn [snd]; split.
    + now apply turn_cubie_canonical.
    + now apply turn_cubie_carried.
Qed.

(** On the cubie made at [home], the sides with a colour are those
    whose normal has dot product 1 with [home]. *)
Lemma materials_outward (home n : Vector3) (k : nat) (colour : Z) :
  In home grid -> nth_error face_normals k = Some n ->
  nth_error (materials home) k = Some colour ->
  colour <> dark <-> dot n home = 1.
Proof.
  intros Hh%In_grid Hn Hm; destruct home as [a b c]; destruct Hh as (Ha & Hb & Hc).
  cbn [x y z] in *.
  assert (Ea : a = -1 \/ a = 0 \/ a = 1) by lia.
  assert (Eb : b = -1 \/ b = 0 \/ b = 1) by lia.
  assert (Ec : c = -1 \/ c = 0 \/ c = 1) by lia.
  do 6 (destruct k as [|k];
        [injection Hn as <-; injection Hm as <-;
         destruct Ea as [->|[->| ->]]; destruct Eb as [->|[->| ->]];
         destruct Ec as [->|[->| ->]]; vm_compute;
         split; intros H; try discriminate; try reflexivity;
         exfalso; now apply H|]).
  destruct k; discriminate.
Qed.

(** X1: in a state at rest, every cubie stands where its own turns have
    taken the place it was made at, and a side of it has a sticker
    exactly when it faces outward on the surface of the cube. *)
Theorem stickers_face_outward (events : list Event) (home : Vector3) (c : Cubie) :
  Forall valid_event events ->
  isAnimating (run events solved) = false ->
  In (home, c) (with_home (run events solved)) ->
  position c = facing c home
  /\ forall k n colour,
       nth_error face_normals k = Some n ->
       nth_error (materials home) k = Some colour ->
       (colour <> dark <-> dot (facing c n) (position c) = 1).
Proof.
  intros _ _ Hin.
  pose proof (reachable_carried events) as H; rewrite Forall_forall in H.
  destruct (H _ Hin) as [Hc Hcar]; cbn [snd] in Hc.
  unfold carried in Hcar; cbn [fst snd] in Hcar; split; trivial.
  intros k n colour Hn Hm; rewrite Hcar, facing_dot by assumption.
  apply (materials_outward home n k colour); trivial.
  unfold with_home in Hin; now apply in_combine_l in Hin.
Qed.

Lemma stickers_face_outward_witness :
  position (cubie (vec3 1 1 (-1)) (euler (-1) 0 0))
  = facing (cubie (vec3 1 1 (-1)) (euler (-1) 0 0)) (vec3 1 1 1).
Proof.
  apply (stickers_face_outward two_turns (vec3 1 1 1)
           (cubie (vec3 1 1 (-1)) (euler (-1) 0 0))
           EngineSpec.two_turns_valid eq_refl).
  apply (nth_error_In _ 26); reflexivity.
Defined.

(** ** Turns about one axis *)

(** A turn about an axis keeps every cubie in its layer of that axis. *)
Lemma in_slice_turn_cubie (axis : string) (i j k : Z) (c : Cubie) :
  in_slice axis j (turn_cubie axis i k c) = in_slice axis j c.
Proof.
  rewrite turn_cubie_parts; destruct (in_slice axis i c); trivial.
  destruct c as [p e]; apply in_slice_turn.
Qed.

Lemma filter_from_map (p : Cubie -> bool) (f : Cubie -> Cubie) (cs : list Cubie) :
  (forall c, p (f c) = p c) ->
  forall n, filter_from n p (map f cs) = filter_from n p cs.
Proof.
  intros H; induction cs as [|c cs IH]; intros n; cbn; trivial.
  now rewrite H, !IH.
Qed.

Lemma turn_cubie_comm (axis : string) (i j k k' : Z) (c : Cubie) :
  canonical (rotation c) ->
  turn_cubie axis i k (turn_cubie axis j k' c)
  = turn_cubie axis j k' (turn_cubie axis i k c).
Proof.
  intros Hc; destruct (Z.eq_dec i j) as [<-|Hij].
  - rewrite !turn_cubie_add by assumption; f_equal; lia.
  - destruct (in_slice axis i c) eqn:Ei; destruct (in_slice axis j c) eqn:Ej.
    + elim Hij; exact (in_slice_unique _ _ _ _ Ei Ej).
    + rewrite (turn_cubie_parts axis j k' c), Ej.
      rewrite (turn_cubie_parts axis j), in_slice_turn_cubie, Ej; trivial.
    + rewrite (turn_cubie_parts axis i k c), Ei.
      rewrite (turn_cubie_parts axis i), in_slice_turn_cubie, Ei; trivial.
    + now rewrite (turn_cubie_parts axis j k' c), Ej,
        (turn_cubie_parts axis i k c), Ei, (turn_cubie_parts axis j k' c), Ej.
Qed.

Lemma turn_reachable (events : list Event) (axis : string) (index direction : Z) :
  isAnimating (run events solved) = false ->
  turn axis index direction (run events solved)
  = state (map (turn_cubie axis index (targetRotation direction))
               (cubies (run events solved))) false None.
Proof. intros Hi; apply turn_at_rest; trivial; apply reachable_well_formed. Qed.

(** X2: in a state at rest, two instant turns about the same axis, of
    the same layer or of two different ones, commute: made in either
    order they leave every cubie at the same position and with the same
    orientation (the rotation matrix of its Euler angles). *)
Theorem turns_about_one_axis_commute (events : list Event) (axis : string)
    (i j d d' : Z) :
  Forall valid_event events ->
  isAnimating (run events solved) = false ->
  valid_axis axis -> valid_index i -> valid_index j ->
  valid_direction d -> valid_direction d' ->
  let st := run events solved in
  positions (turn axis i d (turn axis j d' st))
  = positions (turn axis j d' (turn axis i d st))
  /\ map orientation (cubies (turn axis i d (turn axis j d' st)))
     = map orientation (cubies (turn axis j d' (turn axis i d st))).
Proof.
  intros _ Hi _ _ _ _ _ st; unfold st.
  assert (E : cubies (turn axis i d (turn axis j d' (run events solved)))
              = cubies (turn axis j d' (turn axis i d (run events solved)))).
  { rewrite !turn_reachable, !EngineSpec.turn_state by assumption.
    cbn [cubies]; rewrite !map_map.
    destruct (reachable_well_formed events) as (_ & Hc & _).
    apply (map_ext_Forall _ _ _ _ Hc); intros c Hcan.
    now apply turn_cubie_comm. }
  unfold positions; now rewrite E.
Qed.

Lemma turns_about_one_axis_commute_witness :
  positions (turn "y" 1 1 (turn "y" (-1) (-1) (run two_turns solved)))
  = positions (turn "y" (-1) (-1) (turn "y" 1 1 (run two_turns solved))).
Proof.
  apply (turns_about_one_axis_commute two_turns "y" 1 (-1) 1 (-1)
           EngineSpec.two_turns_valid eq_refl);
    unfold valid_axis, valid_index, valid_direction; auto.
Defined.

(** X3: in a state at rest, an instant turn about an axis changes the
    members of no layer of that axis: [rotateLayer] selects the same
    cubies of [this.cubies] before and after. *)
Theorem turn_keeps_layers (events : list Event) (axis : string)
    (index direction j : Z) :
  Forall valid_event events ->
  isAnimating (run events solved) = false ->
  filter_from 0 (in_slice axis j)
              (cubies (turn axis index direction (run events solved)))
  = filter_from 0 (in_slice axis j) (cubies (run events solved)).
Proof.
  intros _ Hi; rewrite turn_reachable by assumption; cbn [cubies].
  apply filter_from_map; intros c; apply in_slice_turn_cubie.
Qed.

Lemma turn_keeps_layers_witness :
  filter_from 0 (in_slice "z" 0)
              (cubies (turn "z" 1 1 (run two_turns solved)))
  = filter_from 0 (in_slice "z" 0) (cubies (run two_turns solved)).
Proof.
  exact (turn_keeps_layers two_turns "z" 1 1 0 EngineSpec.two_turns_valid
           eq_refl).
Defined.

(** ** Taking turns back *)

Lemma apply_turn_state (m : Turn) (cs : list Cubie) :
  apply_turn (state cs false None) m
  = state (map (turn_cubie (fst (fst m)) (snd (fst m))
                  (targetRotation (snd m))) cs) false None.
Proof. destruct m as [[axis index] direction]; apply EngineSpec.turn_state. Qed.

Lemma apply_turns_state (ms : list Turn) :
  forall cs, Permutation (map position cs) grid ->
    Forall (fun c => canonical (rotation c)) cs ->
    exists cs',
      apply_turns ms (state cs false None) = state cs' false None
      /\ Permutation (map position cs') grid
      /\ Forall (fun c => canonical (rotation c)) cs'.
Proof.
  induction ms as [|m ms IH]; intros cs Hp Hc; cbn.
  - now exists cs.
  - rewrite apply_turn_state; apply IH.
    + now apply turn_positions.
    + now apply turn_canonical.
Qed.

Lemma undo_state (ms : list Turn) :
  forall cs, Forall (fun c => canonical (rotation c)) cs ->
    Permutation (map position cs) grid ->
    apply_turns (undo ms) (apply_turns ms (state cs false None))
    = state cs false None.
Proof.
  induction ms as [|m ms IH]; intros cs Hc Hp; [reflexivity|].
  unfold undo, apply_turns in *; cbn [rev fold_left].
  rewrite map_app, fold_left_app; cbn [map fold_left].
  rewrite apply_turn_state.
  rewrite IH by (now apply turn_canonical || now apply turn_positions).
  destruct m as [[axis index] direction]; cbn [apply_turn fst snd].
  rewrite EngineSpec.turn_state, map_turn_add, map_turn_0; trivial.
  unfold targetRotation; now replace (1 * - direction * -1 + 1 * direction * -1)
    with 0 by lia.
Qed.

(** X4: in a state at rest, any sequence of instant turns with legal
    arguments is taken back by the turns with the opposite directions,
    made in the opposite order: every cubie has the position and the
    orientation (the rotation matrix of its Euler angles) it had, and
    the engine is at rest. *)
Theorem undo_restores (events : list Event) (ms : list Turn) :
  Forall valid_event events ->
  isAnimating (run events solved) = false ->
  Forall valid_turn ms ->
  let st := run events solved in
  let st' := apply_turns (undo ms) (apply_turns ms st) in
  positions st' = positions st
  /\ map orientation (cubies st') = map orientation (cubies st)
  /\ isAnimating st' = false.
Proof.
  intros _ Hi _ st st'.
  pose proof (reachable_well_formed events) as Hwf; fold st in Hwf, Hi.
  pose proof Hwf as (Hp & Hc & _).
  assert (E : st' = state (cubies st) false None)
    by (unfold st'; rewrite (state_at_rest _ Hwf Hi); now apply undo_state).
  rewrite E; unfold positions; cbn [cubies isAnimating]; auto.
Qed.

Lemma undo_restores_witness :
  positions
    (apply_turns (undo [("x", 1, 1); ("y", 0, -1); ("z", -1, 1)]%string)
       (apply_turns [("x", 1, 1); ("y", 0, -1); ("z", -1, 1)]%string
          (run two_turns solved)))
  = positions (run two_turns solved).
Proof.
  apply (undo_restores two_turns [("x", 1, 1); ("y", 0, -1); ("z", -1, 1)]%string
           EngineSpec.two_turns_valid eq_refl).
  repeat (apply Forall_cons;
          [unfold valid_turn, valid_axis, valid_index, valid_direction;
           auto 6|]).
  apply Forall_nil.
Defined.

(** ** Frames of an animation *)

Lemma layer_nonempty (events : list Event) (axis : string) (index : Z) :
  valid_axis axis -> valid_index index ->
  filter (in_slice axis index) (cubies (run events solved)) <> [].
Proof.
  intros Ha Hi E.
  destruct (reachable_well_formed events) as (Hp & _).
  pose proof (layer_length axis index _ Hp Ha Hi) as H.
  unfold layer in H; rewrite E in H; discriminate.
Qed.

Lemma animateStep_turning (axis : string) (index direction : Z)
    (duration now time time' : Q) (st : State) :
  (0 < duration)%Q -> (time' < now + duration)%Q ->
  animateStep time' (turning axis index direction duration now time st)
  = turning axis index direction duration now time' st.
Proof.
  intros Hd Ht; unfold animateStep, turning;
    cbn [pending anim_startTime anim_duration anim_pivot anim_axis
           anim_targetRotation anim_activeCubies cubies isAnimating].
  destruct (Qlt_le_dec _ 1) as [_|Hge].
  - now rewrite set_rotation_twice.
  - exfalso; apply (Qle_not_lt _ _ Hge); now apply progress_lt_1.
Qed.

(** X5: an animated turn started at rest is still on its way on every
    frame before [duration] has elapsed: no cubie has changed, the engine
    is busy, and the angle of the pivot is the eased share of the target
    for the time of that frame alone, whatever frames came before it. *)
Theorem frames_before_the_end (events : list Event) (axis : string)
    (index direction : Z) (duration now time : Q) (times : list Q) :
  Forall valid_event events ->
  isAnimating (run events solved) = false ->
  valid_axis axis -> valid_index index ->
  (0 < duration)%Q ->
  Forall (fun t => (t < now + duration)%Q) (time :: times) ->
  run (Call axis index direction true duration now
         :: map Frame times ++ [Frame time]) (run events solved)
  = turning axis index direction duration now time (run events solved).
Proof.
  intros _ Hi Ha Hx Hd Ht; cbn [run fold_left step].
  destruct (reachable_well_formed events) as (_ & Hc & _).
  rewrite rotateLayer_animated; trivial; [|now apply layer_nonempty].
  inversion Ht as [|? ? Htime Htimes]; subst; clear Ht.
  assert (H0 : forall t, (t < now + duration)%Q ->
            animateStep t
              (state (cubies (run events solved)) true
                 (Some (animation (pivot 0 0 0)
                          (filter_from 0 (in_slice axis index)
                             (cubies (run events solved)))
                          axis (targetRotation direction) now duration)))
            = turning axis index direction duration now t (run events solved)).
  { intros t Hlt; unfold animateStep, turning;
      cbn [pending anim_startTime anim_duration anim_pivot anim_axis
             anim_targetRotation anim_activeCubies cubies isAnimating].
    destruct (Qlt_le_dec _ 1) as [_|Hge]; trivial.
    exfalso; apply (Qle_not_lt _ _ Hge); now apply progress_lt_1. }
  destruct times as [|t times]; cbn [map app fold_left step]; [now apply H0|].
  inversion Htimes as [|? ? Hlt Hrest]; subst.
  rewrite H0 by assumption; clear H0.
  revert t Hlt Htimes; induction times as [|t' times IH]; intros t Hlt Htimes;
    cbn [map app fold_left step].
  - now apply animateStep_turning.
  - inversion Hrest as [|? ? Hlt' Hrest']; subst.
    rewrite animateStep_turning by assumption.
    apply (IH Hrest' t'); trivial.
Qed.

Lemma frames_before_the_end_witness :
  run (Call "z" 1 1 true 300 0 :: map Frame [100%Q; 150%Q] ++ [Frame 200])
      (run two_turns solved)
  = turning "z" 1 1 300 0 200 (run two_turns solved).
Proof.
  apply (frames_before_the_end two_turns "z" 1 1 300 0 200 [100%Q; 150%Q]
           EngineSpec.two_turns_valid eq_refl);
    unfold valid_axis, valid_index; auto; try reflexivity.
  repeat constructor.
Defined.

(** ** The busy flag and the waiting callback *)

Lemma step_pending_valid (st : State) (e : Event) :
  valid_event e -> well_formed st -> pending_valid st ->
  pending_valid (step st e).
Proof.
  intros He Hwf Hv; pose proof Hwf as (Hp & Hc & Hpend).
  destruct e as [axis index direction animate duration now|time]; cbn [step].
  - destruct He as (_ & _ & _ & Hd).
    destruct (isAnimating st) eqn:Hi; [now rewrite rotateLayer_animating|].
    destruct animate.
    + destruct (filter (in_slice axis index) (cubies st)) eqn:E.
      * now rewrite rotateLayer_empty.
      * rewrite rotateLayer_animated by (trivial; congruence); exact Hd.
    + rewrite rotateLayer_instant by assumption; exact Hv.
  - destruct (pending st) as [a|] eqn:Hpd; [|now rewrite animateStep_idle].
    destruct Hpend as (Hi & index & q & Hact & Hpv).
    unfold pending_valid in Hv; rewrite Hpd in Hv.
    destruct (Qlt_le_dec (Qmin ((time - anim_startTime a) / anim_duration a) 1) 1)
      as [Hlt|Hge].
    + destruct (animateStep_running time st a Hpd Hlt) as (v & ->); exact Hv.
    + rewrite (animateStep_final time st a index q)
        by (trivial; now apply Qle_not_lt).
      exact I.
Qed.

Lemma run_pending_valid (events : list Event) :
  Forall valid_event events ->
  forall st, well_formed st -> pending_valid st -> pending_valid (run events st).
Proof.
  induction 1 as [|e events He _ IH]; intros st Hwf Hv; cbn; trivial.
  apply IH; [now apply step_well_formed|now apply step_pending_valid].
Qed.

Lemma mid_turn_valid : Forall valid_event mid_turn.
Proof.
  unfold mid_turn; repeat apply Forall_cons; try apply Forall_nil;
    unfold valid_event, valid_axis, valid_index, valid_direction;
    try exact I; repeat split; auto.
Defined.

(** X7: the engine is busy exactly while a callback waits for a frame,
    and a waiting callback stays, with the cubies untouched, on every
    frame before [startTime + duration] and ends the turn on the first
    frame from then on: the engine cannot stay busy for ever. *)
Theorem busy_while_a_frame_is_due (events : list Event) :
  Forall valid_event events ->
  let st := run events solved in
  match pending st with
  | None => isAnimating st = false
  | Some a =>
      isAnimating st = true
      /\ (forall time,
            (time < anim_startTime a + anim_duration a)%Q ->
            isAnimating (animateStep time st) = true
            /\ pending (animateStep time st) <> None
            /\ cubies (animateStep time st) = cubies st)
      /\ (forall time,
            (anim_startTime a + anim_duration a <= time)%Q ->
            isAnimating (animateStep time st) = false
            /\ pending (animateStep time st) = None)
  end.
Proof.
  intros Hev st.
  pose proof (reachable_well_formed events) as Hwf; fold st in Hwf.
  pose proof (run_pending_valid events Hev solved well_formed_solved I) as Hv.
  fold st in Hv; unfold pending_valid in Hv.
  pose proof Hwf as (Hp & Hc & Hpend).
  destruct (pending st) as [a|] eqn:Hpd; trivial.
  destruct Hpend as (Hi & index & q & Hact & Hpv).
  split; [exact Hi|split]; intros time Ht.
  - apply (progress_lt_1 time _ _ Hv) in Ht.
    destruct (animateStep_running time st a Hpd Ht) as (v & ->).
    cbn [isAnimating pending cubies]; repeat split; trivial; discriminate.
  - rewrite (animateStep_final time st a index q); trivial; [now split|].
    intros Hlt; apply (progress_lt_1 time _ _ Hv) in Hlt.
    exact (Qle_not_lt _ _ Ht Hlt).
Qed.

Lemma busy_while_a_frame_is_due_witness :
  match pending (run mid_turn solved) with
  | None => True
  | Some a => isAnimating (animateStep 300 (run mid_turn solved)) = false
  end.
Proof.
  pose proof (busy_while_a_frame_is_due mid_turn mid_turn_valid) as H.
  cbv zeta in H.
  destruct (pending (run mid_turn solved)) as [a|] eqn:E; [|exact I].
  destruct H as (_ & _ & H).
  apply H.
  injection E as <-; vm_compute; discriminate.
Defined.

End EngineMore.

(** * The easing of an animated turn *)

Module Easing.
Import RubiksCube Engine EngineFacts Moves Lqa.
Local Open Scope Q_scope.

Lemma cube_bounds (u w : Q) :
  0 <= u -> u <= w -> w <= 1 -> 0 <= u ^ 3 /\ u ^ 3 <= w ^ 3 /\ w ^ 3 <= 1.
Proof.
  intros H0 H1 H2; simpl.
  assert (0 <= u * u) by nra.
  assert (u * u <= w * w) by nra.
  assert (w * w <= 1) by nra.
  repeat split; nra.
Qed.

Lemma progress_bounds (start duration time : Q) :
  0 < duration -> start <= time ->
  0 <= Qmin ((time - start) / duration) 1 <= 1.
Proof.
  intros Hd Ht; split; [|apply Q.le_min_r].
  apply Q.min_glb; [|lra].
  apply Qle_shift_div_l; trivial; lra.
Qed.

Lemma progress_mono (start duration time time' : Q) :
  0 < duration -> time <= time' ->
  Qmin ((time - start) / duration) 1 <= Qmin ((time' - start) / duration) 1.
Proof.
  intros Hd Ht; apply Q.min_le_compat_r.
  unfold Qdiv; apply Qmult_le_compat_r; [lra|].
  apply Qlt_le_weak, Qinv_lt_0_compat, Hd.
Qed.

(** X6: the eased share of the target never runs backwards and never
    overshoots: from the start of the animation on it grows with the time
    of the frame, from 0 at the start to 1 once [duration] has elapsed,
    and stays below 1 before that. *)
Theorem ease_grows_to_one (start duration time time' : Q) :
  0 < duration -> start <= time -> time <= time' ->
  ease_at start duration start == 0
  /\ 0 <= ease_at start duration time
  /\ ease_at start duration time <= ease_at start duration time'
  /\ ease_at start duration time' <= 1
  /\ (time' < start + duration -> ease_at start duration time' < 1)
  /\ (start + duration <= time' -> ease_at start duration time' == 1).
Proof.
  intros Hd Ht Ht'; unfold ease_at.
  pose proof (progress_bounds start duration time Hd Ht) as [Hp0 Hp1].
  assert (Hs : start <= time') by lra.
  pose proof (progress_bounds start duration time' Hd Hs) as [Hq0 Hq1].
  pose proof (progress_mono start duration time time' Hd Ht') as Hpq.
  set (p := Qmin ((time - start) / duration) 1) in *.
  set (q := Qmin ((time' - start) / duration) 1) in *.
  destruct (cube_bounds (1 - q) (1 - p)) as (Hc0 & Hc1 & Hc2); try lra.
  destruct (cube_bounds (1 - p) 1) as (_ & Hc3 & _); try lra.
  assert (H1 : (1 : Q) ^ 3 == 1) by reflexivity.
  repeat split; try lra.
  - assert (E : Qmin ((start - start) / duration) 1 == 0).
    { assert (E0 : (start - start) / duration == 0)
        by (unfold Qdiv; setoid_replace (start - start) with 0 by ring; ring).
      rewrite E0; apply Q.min_l; lra. }
    rewrite E; reflexivity.
  - intros Hlt; apply (proj2 (progress_lt_1 time' start duration Hd)) in Hlt.
    fold q in Hlt.
    assert (0 < 1 - q) by lra.
    assert (0 < (1 - q) ^ 3) by (simpl; assert (0 < (1 - q) * (1 - q)) by nra; nra).
    lra.
  - intros Hge.
    assert (Hn : ~ q < 1)
      by (intros Hq; apply (proj1 (progress_lt_1 time' start duration Hd)) in Hq;
          lra).
    pose proof (final_progress ((time' - start) / duration) Hn) as E.
    fold q in E; rewrite E; reflexivity.
Qed.

Lemma ease_grows_to_one_witness :
  ease_at 0 300 100 <= ease_at 0 300 200.
Proof.
  apply (ease_grows_to_one 0 300 100 200); reflexivity || discriminate.
Defined.

End Easing.

(** * Scramble *)

Module ScrambleFacts.
Import RubiksCube Engine EngineFacts Scramble.
Local Open Scope Z_scope.

Lemma random_index_lt (r : Q) (n : nat) :
  (0 <= r)%Q -> (r < 1)%Q -> (0 < n)%nat -> (Cube.random_index r n < n)%nat.
Proof.
  intros H0 H1 Hn; unfold Cube.random_index.
  assert (Hlo : 0 <= Qfloor (r * inject_Z (Z.of_nat n))).
  { change 0 with (Qfloor 0); apply Qfloor_resp_le.
    apply Qmult_le_0_compat; trivial.
    change 0%Q with (inject_Z 0); rewrite <- Zle_Qle; lia. }
  assert (Hhi : Qfloor (r * inject_Z (Z.of_nat n)) < Z.of_nat n).
  { rewrite Zlt_Qlt.
    apply Qle_lt_trans with (r * inject_Z (Z.of_nat n))%Q; [apply Qfloor_le|].
    rewrite <- (Qmult_1_l (inject_Z (Z.of_nat n))) at 2.
    apply Qmult_lt_r; trivial.
    change 0%Q with (inject_Z 0); rewrite <- Zlt_Qlt; lia. }
  lia.
Qed.

Lemma scramble_calls_run (rounds : nat) (random : nat -> Q) :
  forall i cube,
    Cube.scramble_rounds rounds i random cube
    = run (scramble_calls rounds i random) cube.
Proof.
  induction rounds as [|rounds IH]; intros i cube; cbn; auto.
Qed.

Lemma scramble_calls_valid (rounds : nat) (random : nat -> Q) :
  unit_interval random ->
  forall i, Forall valid_event (scramble_calls rounds i random).
Proof.
  intros Hr; induction rounds as [|rounds IH]; intros i;
    cbn [scramble_calls]; constructor; [|apply IH].
  destruct (Hr (3 * i)%nat) as [Ha0 Ha1].
  destruct (Hr (3 * i + 1)%nat) as [Hb0 Hb1].
  destruct (Hr (3 * i + 2)%nat) as [Hc0 Hc1].
  pose proof (random_index_lt _ 3 Ha0 Ha1 ltac:(lia)) as Ha.
  pose proof (random_index_lt _ 3 Hb0 Hb1 ltac:(lia)) as Hb.
  pose proof (random_index_lt _ 2 Hc0 Hc1 ltac:(lia)) as Hc.
  unfold valid_event, valid_axis, valid_index, valid_direction.
  destruct (Cube.random_index (random (3 * i)%nat) 3) as [|[|[|?]]]; try lia;
    destruct (Cube.random_index (random (3 * i + 1)%nat) 3) as [|[|[|?]]];
    try lia;
    destruct (Cube.random_index (random (3 * i + 2)%nat) 2) as [|[|?]];
    try lia; cbn [nth]; repeat split; auto 6.
Qed.

Lemma scramble_calls_idle (rounds : nat) (random : nat -> Q) :
  forall i cube, isAnimating cube = false ->
    isAnimating (run (scramble_calls rounds i random) cube) = false.
Proof.
  induction rounds as [|rounds IH]; intros i cube Hi; cbn; trivial.
  apply IH; now rewrite rotateLayer_instant.
Qed.

Lemma scramble_calls_length (rounds : nat) (random : nat -> Q) :
  forall i, List.length (scramble_calls rounds i random) = rounds.
Proof.
  induction rounds as [|rounds IH]; intros i; cbn; trivial; now rewrite IH.
Qed.

(** X8: [scramble], on a mounted and idle cube, makes 20 instant calls
    of [rotateLayer], each with an axis of [x, y, z], an index of
    [-1, 0, 1] and a direction of [1, -1], and leaves the engine idle and
    the drag as it was; while a turn is animated, or before the cube is
    mounted, it does nothing. *)
Theorem scramble_makes_twenty_valid_turns (random : nat -> Q) (st : Cube.Refs) :
  unit_interval random ->
  match Cube.rubiksCubeRef st with
  | None => Cube.scramble random st = st
  | Some cube =>
      if isAnimating cube then Cube.scramble random st = st
      else
        let calls := scramble_calls 20 0 random in
        List.length calls = 20%nat
        /\ Forall valid_event calls
        /\ Cube.scramble random st
           = Cube.refs (Cube.isDraggingRef st) (Cube.startIntersectRef st)
                       (Some (run calls cube)) (Cube.controls st)
        /\ isAnimating (run calls cube) = false
  end.
Proof.
  intros Hr; unfold Cube.scramble.
  destruct (Cube.rubiksCubeRef st) as [cube|]; trivial.
  destruct (isAnimating cube) eqn:Hi; trivial.
  cbv zeta; split; [apply scramble_calls_length|].
  split; [now apply scramble_calls_valid|].
  split; [now rewrite scramble_calls_run|now apply scramble_calls_idle].
Qed.

Lemma scramble_makes_twenty_valid_turns_witness :
  Forall valid_event (scramble_calls 20 0 (fun k => (1 # 2)%Q)).
Proof.
  assert (H : unit_interval (fun k => (1 # 2)%Q))
    by (intros k; split; [discriminate|reflexivity]).
  exact (proj1 (proj2
    (scramble_makes_twenty_valid_turns (fun k => (1 # 2)%Q) Cube.mounted H))).
Defined.

End ScrambleFacts.

(** * More on the pointer handlers of [Cube.jsx] *)

Module GestureMore.
Import ThreeR Pointer Cube GestureFacts Directions.
Local Open Scope R_scope.

(** ** One gesture, one move *)

Lemma set_enabled_twice (c : option bool) (b b' : bool) :
  set_enabled (set_enabled c b) b' = set_enabled c b'.
Proof. now destruct c. Qed.

Lemma onMouseMove_not_dragging camera now event st :
  isDraggingRef st = false -> onMouseMove camera now event st = (st, None).
Proof. intros H; unfold onMouseMove; now rewrite H. Qed.

Lemma onMouseMove_cases camera now event st :
  onMouseMove camera now event st = (st, None)
  \/ exists m,
       snd (onMouseMove camera now event st) = Some m
       /\ isDraggingRef st = true
       /\ isDraggingRef (fst (onMouseMove camera now event st)) = false.
Proof.
  unfold onMouseMove.
  destruct (isDraggingRef st); [|now left].
  destruct (startIntersectRef st) as [si|]; [|now left].
  destruct (rubiksCubeRef st) as [cube|]; [|now left].
  destruct (RubiksCube.isAnimating cube); [now left|].
  destruct (resolve _ _ _ _) as [m|]; [|now left].
  right; exists m; cbn; auto.
Qed.

Lemma dispatch_moves camera (samples : list (Q * MouseEvent)) :
  forall st,
    (List.length
       (snd (dispatch camera
               (map (fun s => MouseMove (fst s) (snd s)) samples ++ [MouseUp])
               st)) <= 1)%nat
    /\ (isDraggingRef st = false ->
        snd (dispatch camera
               (map (fun s => MouseMove (fst s) (snd s)) samples ++ [MouseUp])
               st) = []).
Proof.
  induction samples as [|s samples IH]; intros st; cbn [map app dispatch].
  - cbn; split; auto.
  - destruct (onMouseMove_cases camera (fst s) (snd s) st)
      as [E|(m & Em & Hd & Hd')].
    + rewrite E; destruct (IH st) as [H1 H2].
      destruct (dispatch camera _ st) as [st'' moves]; cbn [snd] in *.
      split; trivial.
    + destruct (onMouseMove camera (fst s) (snd s) st) as [st' emitted].
      cbn [fst snd] in *; subst emitted.
      destruct (IH st') as [_ H2]; specialize (H2 Hd').
      destruct (dispatch camera _ st') as [st'' moves]; cbn [snd] in *.
      subst moves; split; [cbn; lia|congruence].
Qed.

Lemma dispatch_move_fst camera now event rest st :
  fst (dispatch camera (MouseMove now event :: rest) st)
  = fst (dispatch camera rest (fst (onMouseMove camera now event st))).
Proof.
  cbn [dispatch]; destruct (onMouseMove camera now event st) as [st' emitted].
  cbn [fst]; now destruct (dispatch camera rest st').
Qed.

Lemma onMouseMove_controls camera now event st :
  set_enabled (controls (fst (onMouseMove camera now event st))) true
  = set_enabled (controls st) true.
Proof.
  unfold onMouseMove.
  destruct (isDraggingRef st); trivial.
  destruct (startIntersectRef st) as [si|]; trivial.
  destruct (rubiksCubeRef st) as [cube|]; trivial.
  destruct (RubiksCube.isAnimating cube); trivial.
  destruct (resolve _ _ _ _) as [m|]; trivial.
  cbn [fst controls]; apply set_enabled_twice.
Qed.

Lemma dispatch_final camera (samples : list (Q * MouseEvent)) :
  forall st,
    let st' :=
      fst (dispatch camera
             (map (fun s => MouseMove (fst s) (snd s)) samples ++ [MouseUp])
             st) in
    isDraggingRef st' = false /\ startIntersectRef st' = None
    /\ controls st' = set_enabled (controls st) true.
Proof.
  induction samples as [|s samples IH]; intros st; cbn [map app].
  - cbn; auto.
  - cbv zeta; rewrite dispatch_move_fst.
    destruct (IH (fst (onMouseMove camera (fst s) (snd s) st)))
      as (H1 & H2 & H3).
    rewrite onMouseMove_controls in H3; auto.
Qed.

Lemma onMouseDown_controls (down : MouseEvent) (st : Refs) :
  set_enabled (controls (onMouseDown down st)) true
  = set_enabled (controls st) true.
Proof.
  unfold onMouseDown, getIntersect.
  destruct (negb _); trivial.
  destruct (rubiksCubeRef st) as [cube|]; trivial.
  destruct (RubiksCube.isAnimating cube); trivial.
  destruct (raycast down); cbn [controls]; trivial.
  apply set_enabled_twice.
Qed.

(** X9: whatever the samples of a gesture are, the handlers ask the cube
    for at most one move between the mouse going down and going up, and
    at the end of the gesture no drag is open and the orbit controls, if
    there are any, are enabled. *)
Theorem one_move_per_gesture (camera : Camera) (down : MouseEvent)
    (samples : list (Q * MouseEvent)) (st : Refs) :
  let result := dispatch camera (gesture down samples) st in
  (List.length (snd result) <= 1)%nat
  /\ isDraggingRef (fst result) = false
  /\ startIntersectRef (fst result) = None
  /\ controls (fst result) = set_enabled (controls st) true.
Proof.
  unfold gesture; cbn [dispatch]; cbv zeta.
  destruct (dispatch_moves camera samples (onMouseDown down st)) as [H _].
  destruct (dispatch_final camera samples (onMouseDown down st))
    as (H1 & H2 & H3).
  rewrite onMouseDown_controls in H3; auto.
Qed.

(** ** The moves [resolve] asks for *)

Lemma axis_name_valid (v : Vector3) : Engine.valid_axis (axis_name v).
Proof.
  unfold axis_name, Engine.valid_axis.
  destruct (Rgt_dec (Rabs (z v)) 0.9); auto.
  destruct (Rgt_dec (Rabs (y v)) 0.9); auto.
Qed.

Lemma resolve_parts camera si dx dy m :
  resolve camera si dx dy = Some m ->
  below_threshold dx dy = false
  /\ 0.5 < maxDot camera si dx dy
  /\ exists a,
       bestAxis camera si dx dy = Some a
       /\ move_axis m = axis_name (normalize (crossVectors a (worldNormal si)))
       /\ move_index m = layer_of si (move_axis m)
       /\ move_direction m
          = ((if Rlt_dec (dot (normalize (crossVectors (worldNormal si) a))
                              (unit (move_axis m))) 0
              then -1 else 1)
             * (if Rgt_dec (dot2 (dragVec dx dy)
                                 (normalize2 (axisVec2D camera si a))) 0
                then 1 else -1))%Z.
Proof.
  unfold resolve; destruct (below_threshold dx dy); [discriminate|].
  destruct (Rgt_dec _ 0.5) as [Hgt|]; [|discriminate].
  destruct (bestAxis camera si dx dy) as [a|]; [|discriminate].
  cbv zeta; intros H; injection H as <-; cbn [move_axis move_index move_direction].
  repeat split; trivial; exists a; repeat split.
  destruct (Rlt_dec _ 0); destruct (Rgt_dec _ 0); reflexivity.
Qed.

Lemma resolve_axis camera si dx dy m :
  resolve camera si dx dy = Some m -> Engine.valid_axis (move_axis m).
Proof.
  intros H; apply resolve_parts in H as (_ & _ & a & _ & -> & _).
  apply axis_name_valid.
Qed.

Lemma resolve_direction camera si dx dy m :
  resolve camera si dx dy = Some m -> Engine.valid_direction (move_direction m).
Proof.
  intros H; apply resolve_parts in H as (_ & _ & a & _ & _ & _ & ->).
  unfold Engine.valid_direction.
  destruct (Rlt_dec _ 0); destruct (Rgt_dec _ 0); auto.
Qed.

Lemma resolve_index camera si dx dy m :
  resolve camera si dx dy = Some m ->
  Three.get (object_position si) (move_axis m) = Some (move_index m).
Proof.
  intros H; pose proof (resolve_axis _ _ _ _ _ H) as Hv.
  apply resolve_parts in H as (_ & _ & a & _ & _ & -> & _).
  unfold layer_of.
  destruct Hv as [->|[->| ->]]; unfold Three.get;
    cbn [String.eqb Ascii.eqb Bool.eqb];
    now rewrite EngineFacts.Math_round_inject_Z.
Qed.

(** X10: every move [resolve] asks for is a legal one: its axis is one
    of [x, y, z], its direction is [1] or [-1], and its layer index is
    the coordinate of the picked cubie along that axis, hence one of
    [-1, 0, 1] for a cubie on the grid. *)
Theorem resolve_asks_for_legal_moves (camera : Camera) (si : Intersection)
    (dx dy : Z) (m : Move) :
  resolve camera si dx dy = Some m ->
  Engine.valid_axis (move_axis m)
  /\ Engine.valid_direction (move_direction m)
  /\ Three.get (object_position si) (move_axis m) = Some (move_index m)
  /\ (Engine.in_grid (object_position si) -> Engine.valid_index (move_index m)).
Proof.
  intros H.
  pose proof (resolve_axis _ _ _ _ _ H) as Hv.
  pose proof (resolve_index _ _ _ _ _ H) as Hg.
  split; [exact Hv|].
  split; [exact (resolve_direction _ _ _ _ _ H)|].
  split; [exact Hg|].
  intros (Hx & Hy & Hz); unfold Engine.valid_index.
  destruct Hv as [E|[E|E]]; rewrite E in Hg; unfold Three.get in Hg;
    cbn [String.eqb Ascii.eqb Bool.eqb] in Hg; injection Hg as <-; lia.
Qed.

Lemma resolve_asks_for_legal_moves_witness :
  Engine.valid_axis (move_axis (move "y" 0 1))
  /\ Engine.valid_direction (move_direction (move "y" 0 1)).
Proof.
  destruct (resolve_asks_for_legal_moves front_camera front_pick 2 (-2)
              (move "y" 0 1) front_diagonal_resolve) as (H1 & H2 & _).
  split; assumption.
Defined.

(** ** The direction of the sample, and nothing else of it *)

Lemma fold_left_ext {A B : Type} (f g : A -> B -> A) (l : list B) :
  (forall a b, f a b = g a b) ->
  forall a, fold_left f l a = fold_left g l a.
Proof.
  intros H; induction l as [|b l IH]; intros a; cbn; trivial.
  now rewrite H, IH.
Qed.

Lemma best_ext camera si dx dy dx' dy' :
  (forall axis, score camera si dx dy axis = score camera si dx' dy' axis) ->
  best camera si dx dy = best camera si dx' dy'.
Proof.
  intros H; unfold best; apply fold_left_ext; intros acc axis.
  unfold keep_best; now rewrite H.
Qed.

(** What [resolve] reads of [(dx, dy)]: the side of the threshold and
    the normalised [dragVec]. *)
Lemma resolve_dragVec camera si dx dy dx' dy' :
  below_threshold dx dy = below_threshold dx' dy' ->
  dragVec dx dy = dragVec dx' dy' ->
  resolve camera si dx dy = resolve camera si dx' dy'.
Proof.
  intros Hb Hd.
  assert (E : best camera si dx dy = best camera si dx' dy')
    by (apply best_ext; intros axis; unfold score; now rewrite Hd).
  unfold resolve, maxDot, bestAxis; now rewrite Hb, E, Hd.
Qed.

Lemma length2_scale (k : R) (v : Vector2) :
  0 < k -> length2 (vec2 (k * x2 v) (k * y2 v)) = k * length2 v.
Proof.
  intros Hk; unfold length2; cbn [x2 y2].
  replace (k * x2 v * (k * x2 v) + k * y2 v * (k * y2 v))
    with (k * k * (x2 v * x2 v + y2 v * y2 v)) by ring.
  rewrite sqrt_mult, sqrt_square by nra; trivial.
Qed.

Lemma normalize2_scale (k : R) (v : Vector2) :
  0 < k -> normalize2 (vec2 (k * x2 v) (k * y2 v)) = normalize2 v.
Proof.
  intros Hk; unfold normalize2; rewrite length2_scale by trivial.
  cbn [x2 y2]; unfold or_one.
  destruct (Req_dec_T (length2 v) 0) as [E|E].
  - destruct (length2_zero v E) as [-> ->].
    destruct (Req_dec_T (k * length2 v) 0); f_equal; field; nra.
  - destruct (Req_dec_T (k * length2 v) 0); [nra|f_equal; field; lra].
Qed.

Lemma dragVec_scale (k dx dy : Z) :
  (0 < k)%Z -> dragVec (k * dx) (k * dy) = dragVec dx dy.
Proof.
  intros Hk; unfold dragVec; rewrite !mult_IZR.
  replace (- (IZR k * IZR dy)) with (IZR k * - IZR dy) by ring.
  apply (normalize2_scale (IZR k) (vec2 (IZR dx) (- IZR dy))).
  now apply (IZR_lt 0).
Qed.

Lemma below_threshold_scale (k dx dy : Z) :
  (0 < k)%Z -> below_threshold dx dy = false ->
  below_threshold (k * dx) (k * dy) = false.
Proof.
  unfold below_threshold; intros Hk H.
  apply andb_false_iff in H; apply andb_false_iff.
  rewrite !Z.ltb_ge in *; rewrite !Z.abs_mul; nia.
Qed.

(** X11: past the two-pixel threshold only the direction of a sample
    counts: a sample [k] times as long, in the same direction, is
    resolved to the same move, or declined as well. *)
Theorem longer_drag_same_move (camera : Camera) (si : Intersection)
    (k dx dy : Z) :
  (0 < k)%Z -> below_threshold dx dy = false ->
  resolve camera si (k * dx) (k * dy) = resolve camera si dx dy.
Proof.
  intros Hk Hb; apply resolve_dragVec.
  - now rewrite Hb, below_threshold_scale.
  - now apply dragVec_scale.
Qed.

Lemma longer_drag_same_move_witness :
  resolve front_camera front_pick (3 * 2) (3 * -2)
  = resolve front_camera front_pick 2 (-2).
Proof.
  apply (longer_drag_same_move front_camera front_pick 3 2 (-2));
    reflexivity.
Defined.

(** ** The opposite drag *)

Lemma below_threshold_opp (dx dy : Z) :
  below_threshold (- dx) (- dy) = below_threshold dx dy.
Proof. unfold below_threshold; now rewrite !Z.abs_opp. Qed.

Lemma dragVec_opp (dx dy : Z) :
  dragVec (- dx) (- dy)
  = vec2 (- x2 (dragVec dx dy)) (- y2 (dragVec dx dy)).
Proof.
  unfold dragVec; rewrite !opp_IZR; unfold normalize2; cbn [x2 y2].
  replace (length2 (vec2 (- IZR dx) (- - IZR dy)))
    with (length2 (vec2 (IZR dx) (- IZR dy)))
    by (unfold length2; cbn [x2 y2]; f_equal; ring).
  pose proof (or_one_pos _ (length2_nonneg (vec2 (IZR dx) (- IZR dy)))).
  f_equal; field; lra.
Qed.

Lemma projected_opp camera si dx dy axis :
  dot2 (dragVec (- dx) (- dy)) (normalize2 (axisVec2D camera si axis))
  = - dot2 (dragVec dx dy) (normalize2 (axisVec2D camera si axis)).
Proof. rewrite dragVec_opp; unfold dot2; cbn [x2 y2]; ring. Qed.

Lemma best_opp camera si dx dy :
  best camera si (- dx) (- dy) = best camera si dx dy.
Proof.
  apply best_ext; intros axis; unfold score.
  rewrite projected_opp; apply Rabs_Ropp.
Qed.

(** Past the gate the winning candidate scored [maxDot]. *)
Lemma bestAxis_score camera si dx dy a :
  0 < maxDot camera si dx dy -> bestAxis camera si dx dy = Some a ->
  In a (possibleAxes (worldNormal si))
  /\ score camera si dx dy a = maxDot camera si dx dy.
Proof.
  intros Hm Ha.
  destruct (possibleAxes_two (worldNormal si)) as (p & q & E).
  destruct (best_of_two camera si dx dy p q E) as (_ & Hbest & _).
  destruct (Hbest Hm) as (b & Hb & Hin & Hs).
  rewrite Ha in Hb; injection Hb as <-.
  split; [rewrite E; destruct Hin as [->| ->]; cbn; auto|exact Hs].
Qed.

(** X12: the opposite sample is resolved to the opposite move: the same
    axis and layer, the other direction. *)
Theorem opposite_drag_opposite_turn (camera : Camera) (si : Intersection)
    (dx dy : Z) (m : Move) :
  resolve camera si dx dy = Some m ->
  resolve camera si (- dx) (- dy)
  = Some (move (move_axis m) (move_index m) (- move_direction m)).
Proof.
  intros H; pose proof (resolve_parts _ _ _ _ _ H) as (_ & Hm & a & Ha & _).
  destruct (bestAxis_score camera si dx dy a) as [_ Hs]; [lra|trivial|].
  revert H; unfold resolve, maxDot, bestAxis in *.
  rewrite below_threshold_opp, best_opp.
  destruct (below_threshold dx dy); [discriminate|].
  destruct (Rgt_dec _ 0.5); [|discriminate].
  rewrite Ha; cbv zeta; intros H; injection H as <-.
  cbn [move_axis move_index move_direction].
  rewrite projected_opp.
  unfold score in Hs.
  set (p := dot2 (dragVec dx dy) (normalize2 (axisVec2D camera si a))) in *.
  assert (Hp : p <> 0) by (intros E; rewrite E, Rabs_R0 in Hs; lra).
  do 2 f_equal.
  destruct (Rlt_dec _ 0); destruct (Rgt_dec p 0); destruct (Rgt_dec (- p) 0);
    try reflexivity; lra.
Qed.

Lemma opposite_drag_opposite_turn_witness :
  resolve front_camera front_pick (- 2) (- -2) = Some (move "y" 0 (-1)).
Proof.
  exact (opposite_drag_opposite_turn front_camera front_pick 2 (-2)
           (move "y" 0 1) front_diagonal_resolve).
Defined.

(** ** Which way a move turns *)

Ltac decide_gt :=
  repeat match goal with
    | |- context [Rgt_dec ?a ?b] =>
        destruct (Rgt_dec a b) as [?H|?H];
        try (exfalso; unfold Rabs in *;
             repeat match goal with
               | H : context [Rcase_abs ?e] |- _ => destruct (Rcase_abs e)
               end; lra)
    end.

Ltac decide_lt :=
  repeat match goal with
    | |- context [Rlt_dec ?a ?b] =>
        destruct (Rlt_dec a b) as [?H|?H]; try (exfalso; lra)
    end.

(** The two candidates, the axis named and the sign of the cross check,
    for a side that faces along an axis. *)
Lemma cross_check (n a : Vector3) :
  axis_aligned n -> In a (possibleAxes n) ->
  let name := axis_name (normalize (crossVectors a n)) in
  crossVectors n a
  = multiplyScalar (unit name)
      (if Rlt_dec (dot (normalize (crossVectors n a)) (unit name)) 0
       then -1 else 1).
Proof.
  unfold axis_aligned; cbn [In]; intros Hn.
  repeat (destruct Hn as [<-|Hn]; [|]); [..|destruct Hn];
    unfold possibleAxes; cbn [x y z]; decide_gt; cbn [In];
    (intros [<-|[<-|[]]]); cbv zeta; unfold crossVectors; cbn [x y z];
    rewrite !normalize_unit by (cbn [x y z]; ring);
    unfold axis_name; cbn [x y z]; decide_gt;
    unfold unit, dot, multiplyScalar;
    cbn [String.eqb Ascii.eqb Bool.eqb x y z]; decide_lt;
    f_equal; ring.
Qed.

Lemma multiplyScalar_cross (n a : Vector3) (s : R) :
  crossVectors n (multiplyScalar a s) = multiplyScalar (crossVectors n a) s.
Proof.
  unfold crossVectors, multiplyScalar; cbn [x y z]; f_equal; ring.
Qed.

Lemma multiplyScalar_twice (v : Vector3) (s t : R) :
  multiplyScalar (multiplyScalar v s) t = multiplyScalar v (s * t).
Proof. unfold multiplyScalar; cbn [x y z]; f_equal; ring. Qed.

(** How [resolve] reads the drag: as [s] times the candidate [a]. *)
Lemma resolve_reading camera si dx dy m :
  resolve camera si dx dy = Some m ->
  exists (a : Vector3) (s : Z),
    In a (possibleAxes (worldNormal si))
    /\ (s = 1 \/ s = -1)%Z
    /\ 0.5 < IZR s * dot2 (dragVec dx dy)
                          (normalize2 (axisVec2D camera si a))
    /\ move_axis m = axis_name (normalize (crossVectors a (worldNormal si)))
    /\ move_direction m
       = ((if Rlt_dec (dot (normalize (crossVectors (worldNormal si) a))
                           (unit (move_axis m))) 0
           then -1 else 1) * s)%Z.
Proof.
  intros H.
  apply resolve_parts in H as (_ & Hm & a & Ha & Hx & _ & Hd).
  destruct (bestAxis_score camera si dx dy a) as [Hin Hs]; [lra|trivial|].
  unfold score in Hs.
  set (p := dot2 (dragVec dx dy) (normalize2 (axisVec2D camera si a))) in *.
  exists a, (if Rgt_dec p 0 then 1 else -1)%Z.
  split; [exact Hin|]. split; [destruct (Rgt_dec p 0); auto|].
  split; [|split; [exact Hx|exact Hd]].
  rewrite <- Hs in Hm; unfold Rabs in Hm.
  fold p; destruct (Rcase_abs p); destruct (Rgt_dec p 0); cbv iota; lra.
Qed.

Lemma cross_of_move (n a : Vector3) (s : Z) (m : Move) :
  axis_aligned n -> In a (possibleAxes n) ->
  move_axis m = axis_name (normalize (crossVectors a n)) ->
  move_direction m
  = ((if Rlt_dec (dot (normalize (crossVectors n a)) (unit (move_axis m))) 0
      then -1 else 1) * s)%Z ->
  crossVectors n (multiplyScalar a (IZR s))
  = multiplyScalar (unit (move_axis m)) (IZR (move_direction m)).
Proof.
  intros Hn Hin Hx Hd.
  rewrite multiplyScalar_cross, Hd, mult_IZR, <- multiplyScalar_twice.
  f_equal.
  pose proof (cross_check n a Hn Hin) as E; cbv zeta in E.
  rewrite <- Hx in E; rewrite E at 1.
  now destruct (Rlt_dec _ 0).
Qed.

(** X13: on a side that faces along an axis, the move asked for is the
    quarter turn by the right-hand rule that takes the normal [n] of the
    side to the direction of the drag.  The drag is read as [s] times a
    candidate axis [a], the one of the two it is nearest to on the
    screen, within 60 degrees; the axis of the move is the one along
    [n x a], and its direction the sign that makes
    [direction * axis = n x (s * a)].  What the engine then does with
    the direction is the matter of X15. *)
Theorem move_is_right_hand_turn_to_the_drag (camera : Camera)
    (si : Intersection) (dx dy : Z) (m : Move) :
  axis_aligned (worldNormal si) ->
  resolve camera si dx dy = Some m ->
  exists (a : Vector3) (s : Z),
    In a (possibleAxes (worldNormal si))
    /\ (s = 1 \/ s = -1)%Z
    /\ 0.5 < IZR s * dot2 (dragVec dx dy)
                          (normalize2 (axisVec2D camera si a))
    /\ crossVectors (worldNormal si) (multiplyScalar a (IZR s))
       = multiplyScalar (unit (move_axis m)) (IZR (move_direction m)).
Proof.
  intros Hn H.
  destruct (resolve_reading camera si dx dy m H)
    as (a & s & Hin & Hs & Hdrag & Hx & Hd).
  exists a, s.
  split; [exact Hin|]. split; [exact Hs|]. split; [exact Hdrag|].
  now apply cross_of_move.
Qed.

Lemma move_is_right_hand_turn_to_the_drag_witness :
  exists (a : Vector3) (s : Z),
    In a (possibleAxes (worldNormal front_pick))
    /\ (s = 1 \/ s = -1)%Z
    /\ 0.5 < IZR s * dot2 (dragVec 2 (-2))
                          (normalize2 (axisVec2D front_camera front_pick a))
    /\ crossVectors (worldNormal front_pick) (multiplyScalar a (IZR s))
       = multiplyScalar (unit "y") 1.
Proof.
  apply (move_is_right_hand_turn_to_the_drag front_camera front_pick 2 (-2)
           (move "y" 0 1)).
  - rewrite worldNormal_front; unfold axis_aligned; cbn; auto 6.
  - exact front_diagonal_resolve.
Defined.

End GestureMore.

(** * From the drag to the turn: the handlers on top of the engine *)

Module DragAndTurn.
Import ThreeR Pointer Cube GestureFacts Directions GestureMore.
Local Open Scope R_scope.

(** ** The layer of the cubie picked *)

Lemma picked_in_slice (si : Intersection) (c : RubiksCube.Cubie) (m : Move) :
  object_position si = RubiksCube.position c ->
  Three.get (object_position si) (move_axis m) = Some (move_index m) ->
  RubiksCube.in_slice (move_axis m) (move_index m) c = true.
Proof.
  intros Hp Hg; rewrite EngineFacts.in_slice_get, <- Hp, Hg.
  apply Z.eqb_refl.
Qed.

(** X14: a sample that [resolve] turns into a move, on a cubie of a cube
    at rest, always sets the cube turning: [onMouseMove] asks for the
    move, the layer asked for holds the cubie picked, the cube is busy
    from then on, and the frame that comes 300 ms later or after leaves
    the cube as the instant turn of that layer would. *)
Theorem drag_turns_the_layer_of_the_picked_cubie (events : list Engine.Event)
    (camera : Camera) (now time : Q) (event : MouseEvent) (si : Intersection)
    (c : RubiksCube.Cubie) (ctl : option bool) (m : Move) :
  Forall Engine.valid_event events ->
  RubiksCube.isAnimating (Engine.run events RubiksCube.solved) = false ->
  In c (RubiksCube.cubies (Engine.run events RubiksCube.solved)) ->
  object_position si = RubiksCube.position c ->
  resolve camera si (movementX event) (movementY event) = Some m ->
  (now + 300 <= time)%Q ->
  let cube := Engine.run events RubiksCube.solved in
  let after := onMouseMove camera now event (refs true (Some si) (Some cube) ctl) in
  snd after = Some m
  /\ RubiksCube.in_slice (move_axis m) (move_index m) c = true
  /\ exists cube',
       rubiksCubeRef (fst after) = Some cube'
       /\ RubiksCube.isAnimating cube' = true
       /\ RubiksCube.animateStep time cube'
          = Engine.turn (move_axis m) (move_index m) (move_direction m) cube.
Proof.
  intros _ Hi Hc Hp Hr Ht cube after.
  pose proof (resolve_index _ _ _ _ _ Hr) as Hg.
  pose proof (EngineFacts.reachable_well_formed events) as Hwf.
  fold cube in Hwf, Hi, Hc.
  pose proof (picked_in_slice si c m Hp Hg) as Hs.
  assert (Hne : filter (RubiksCube.in_slice (move_axis m) (move_index m))
                       (RubiksCube.cubies cube) <> []).
  { intros E; assert (Hin : In c []) by (rewrite <- E; now apply filter_In).
    destruct Hin. }
  unfold after, onMouseMove;
    cbn [isDraggingRef startIntersectRef rubiksCubeRef Cube.controls].
  rewrite Hi, Hr; cbn [fst snd rubiksCubeRef].
  split; [reflexivity|]. split; [exact Hs|].
  eexists; split; [reflexivity|]. split.
  - rewrite EngineFacts.rotateLayer_animated; trivial; apply Hwf.
  - exact (EngineFacts.animated_turn_runs (move_axis m) (move_index m)
             (move_direction m) 300 now time [] cube Hwf Hi eq_refl Ht).
Qed.

Lemma drag_turns_the_layer_of_the_picked_cubie_witness :
  RubiksCube.in_slice "y" 0
    (RubiksCube.cubie (Three.vec3 0 0 1) (Three.euler 0 0 0)) = true.
Proof.
  refine (proj1 (proj2
    (drag_turns_the_layer_of_the_picked_cubie [] front_camera 0 300
       (mouseEvent 0 2 (-2) None) front_pick
       (RubiksCube.cubie (Three.vec3 0 0 1) (Three.euler 0 0 0)) (Some false)
       (move "y" 0 1) (Forall_nil _) eq_refl _ eq_refl
       front_diagonal_resolve _))).
  - apply (nth_error_In _ 14); reflexivity.
  - discriminate.
Defined.

(** ** Which way the side picked goes *)

Lemma facing_turn_cubie (axis : string) (index k : Z) (c : RubiksCube.Cubie)
    (n : Three.Vector3) :
  RubiksCube.in_slice axis index c = true ->
  Engine.canonical (RubiksCube.rotation c) ->
  Materials.facing (Engine.turn_cubie axis index k c) n
  = Three.applyMatrix (Engine.pivot_at axis k) (Materials.facing c n).
Proof.
  intros Hs Hc; unfold Materials.facing.
  rewrite EngineFacts.turn_cubie_parts, Hs; cbn [RubiksCube.rotation].
  rewrite EngineFacts.turn_rotation_orientation; trivial.
  - apply EngineMore.applyMatrix_multiply.
  - exact (EngineFacts.in_slice_valid _ _ _ Hs).
Qed.

(** A cubie at a whole number of quarter turns shows its sides along the
    axes. *)
Lemma facing_normal (c : RubiksCube.Cubie) (n : Three.Vector3) :
  Engine.canonical (RubiksCube.rotation c) -> In n Materials.face_normals ->
  In (Materials.facing c n) Materials.face_normals.
Proof.
  intros Hc Hn; apply EngineFacts.canonical_candidate in Hc.
  assert (H : forallb (fun e =>
               forallb (fun n =>
                 Materials.normalb
                   (Three.applyMatrix (Three.makeRotationFromEuler e) n))
               Materials.face_normals) Engine.candidates = true)
    by (vm_compute; reflexivity).
  rewrite forallb_forall in H; specialize (H _ Hc).
  rewrite forallb_forall in H; specialize (H _ Hn).
  unfold Materials.normalb in H; apply existsb_exists in H as (n' & Hn' & E).
  unfold Materials.facing.
  apply andb_prop in E as [E E3]; apply andb_prop in E as [E1 E2].
  apply Z.eqb_eq in E1, E2, E3.
  destruct (Three.applyMatrix _ n) as [v1 v2 v3], n' as [n1 n2 n3].
  cbn [Three.x Three.y Three.z] in *; now subst.
Qed.

(** The engine turns by [-90] degrees times [direction]: the turn whose
    axis and direction are those of [n x d] takes [n] to [-d]. *)
Lemma against_the_drag (n : Three.Vector3) (a : Vector3) (s d : Z)
    (axis : string) :
  In n Materials.face_normals ->
  In a (possibleAxes (real_vector n)) ->
  (s = 1 \/ s = -1)%Z ->
  Engine.valid_axis axis -> Engine.valid_direction d ->
  crossVectors (real_vector n) (multiplyScalar a (IZR s))
  = multiplyScalar (unit axis) (IZR d) ->
  real_vector
    (Three.applyMatrix (Engine.pivot_at axis (RubiksCube.targetRotation d)) n)
  = multiplyScalar a (- IZR s).
Proof.
  unfold Materials.face_normals; cbn [In]; intros Hn.
  repeat (destruct Hn as [<-|Hn]; [|]); [..|destruct Hn];
    unfold real_vector; cbn [Three.x Three.y Three.z];
    unfold possibleAxes; cbn [x y z]; decide_gt; cbn [In];
    (intros [<-|[<-|[]]] [->| ->] [->|[->| ->]] [->| ->]);
    unfold crossVectors, multiplyScalar, unit;
    cbn [String.eqb Ascii.eqb Bool.eqb x y z];
    intros E; injection E as E1 E2 E3;
    try (exfalso; lra);
    match goal with
    | |- context [Three.applyMatrix ?m ?v] =>
        let r := eval vm_compute in (Three.applyMatrix m v) in
        change (Three.applyMatrix m v) with r
    end;
    cbn [Three.x Three.y Three.z]; f_equal; lra.
Qed.

Lemma against_the_drag_case camera si dx dy m (c : RubiksCube.Cubie)
    (n : Three.Vector3) :
  Engine.canonical (RubiksCube.rotation c) ->
  In n Materials.face_normals ->
  object_position si = RubiksCube.position c ->
  worldNormal si = real_vector (Materials.facing c n) ->
  resolve camera si dx dy = Some m ->
  exists (a : Vector3) (s : Z),
    In a (possibleAxes (worldNormal si))
    /\ (s = 1 \/ s = -1)%Z
    /\ 0.5 < IZR s * dot2 (dragVec dx dy)
                          (normalize2 (axisVec2D camera si a))
    /\ real_vector
         (Materials.facing
            (Engine.turn_cubie (move_axis m) (move_index m)
               (RubiksCube.targetRotation (move_direction m)) c) n)
       = multiplyScalar a (- IZR s).
Proof.
  intros Hc Hn Hp Hw Hr.
  pose proof (facing_normal c n Hc Hn) as HN.
  pose proof (resolve_axis _ _ _ _ _ Hr) as Ha.
  pose proof (resolve_direction _ _ _ _ _ Hr) as Hd.
  pose proof (picked_in_slice si c m Hp (resolve_index _ _ _ _ _ Hr)) as Hs.
  destruct (resolve_reading camera si dx dy m Hr)
    as (a & s & Hin & Hsg & Hdrag & Hx & Hdir).
  assert (Hal : axis_aligned (worldNormal si)).
  { rewrite Hw; unfold axis_aligned, real_vector.
    revert HN; unfold Materials.face_normals; cbn [In].
    intros [<-|[<-|[<-|[<-|[<-|[<-|[]]]]]]]; cbn; auto 7. }
  pose proof (cross_of_move (worldNormal si) a s m Hal Hin Hx Hdir) as E.
  exists a, s; repeat split; trivial.
  rewrite facing_turn_cubie by trivial.
  rewrite Hw in Hin, E; now apply against_the_drag.
Qed.

(** X15: the side of a cubie that is picked goes against the drag.  For
    a cubie [c] of a cube at rest picked on its side [n], and a sample
    that [resolve] reads as a drag along [s] times the candidate axis
    [a], the instant turn [rotateLayer(axis, index, direction, false)]
    with the arguments of the move leaves that side of the cubie facing
    [- s * a]. *)
Theorem picked_side_turns_against_the_drag (events : list Engine.Event)
    (camera : Camera) (si : Intersection) (dx dy : Z) (m : Move) (i : nat)
    (c : RubiksCube.Cubie) (n : Three.Vector3) :
  Forall Engine.valid_event events ->
  RubiksCube.isAnimating (Engine.run events RubiksCube.solved) = false ->
  nth_error (RubiksCube.cubies (Engine.run events RubiksCube.solved)) i = Some c ->
  In n Materials.face_normals ->
  object_position si = RubiksCube.position c ->
  worldNormal si = real_vector (Materials.facing c n) ->
  resolve camera si dx dy = Some m ->
  exists (a : Vector3) (s : Z) (c' : RubiksCube.Cubie),
    In a (possibleAxes (worldNormal si))
    /\ (s = 1 \/ s = -1)%Z
    /\ 0.5 < IZR s * dot2 (dragVec dx dy)
                          (normalize2 (axisVec2D camera si a))
    /\ nth_error
         (RubiksCube.cubies
            (Engine.turn (move_axis m) (move_index m) (move_direction m)
               (Engine.run events RubiksCube.solved))) i = Some c'
    /\ real_vector (Materials.facing c' n) = multiplyScalar a (- IZR s).
Proof.
  intros _ Hi Hc Hn Hp Hw Hr.
  destruct (EngineFacts.reachable_well_formed events) as (_ & Hcan & _).
  rewrite Forall_forall in Hcan.
  pose proof (Hcan c (nth_error_In _ _ Hc)) as Hcc.
  destruct (against_the_drag_case camera si dx dy m c n Hcc Hn Hp Hw Hr)
    as (a & s & H1 & H2 & H3 & H4).
  exists a, s; eexists; repeat split; try eassumption.
  rewrite EngineMore.turn_reachable by trivial; cbn [RubiksCube.cubies].
  now rewrite nth_error_map, Hc.
Qed.

Lemma picked_side_turns_against_the_drag_witness :
  exists (a : Vector3) (s : Z) (c' : RubiksCube.Cubie),
    In a (possibleAxes (worldNormal front_pick))
    /\ (s = 1 \/ s = -1)%Z
    /\ 0.5 < IZR s * dot2 (dragVec 2 (-2))
                          (normalize2 (axisVec2D front_camera front_pick a))
    /\ nth_error
         (RubiksCube.cubies (Engine.turn "y" 0 1 (Engine.run [] RubiksCube.solved)))
         14 = Some c'
    /\ real_vector (Materials.facing c' (Three.vec3 0 0 1))
       = multiplyScalar a (- IZR s).
Proof.
  apply (picked_side_turns_against_the_drag [] front_camera front_pick 2 (-2)
           (move "y" 0 1) 14
           (RubiksCube.cubie (Three.vec3 0 0 1) (Three.euler 0 0 0))
           (Three.vec3 0 0 1)).
  - constructor.
  - reflexivity.
  - reflexivity.
  - cbn; auto 6.
  - reflexivity.
  - rewrite worldNormal_front; reflexivity.
  - exact front_diagonal_resolve.
Defined.

End DragAndTurn.

(** * The move history of [backup/solver.js] *)

Module SolverFacts.
Import Solver.

(** ** [scramble] *)

Lemma random_move (r : Q) :
  (0 <= r)%Q -> (r < 1)%Q ->
  In (nth (Cube.random_index r (List.length moves)) moves "undefined"%string)
     moves.
Proof.
  intros H0 H1; apply nth_In.
  apply ScrambleFacts.random_index_lt; trivial; cbn; lia.
Qed.

Lemma scramble_from_spec (CubeGroup : Type)
    (rotateFace : CubeGroup -> string -> CubeGroup) (random : nat -> Q)
    (steps : nat) :
  Scramble.unit_interval random ->
  forall (i : nat) (w : World CubeGroup),
  exists ms : list string,
    List.length ms = steps
    /\ Forall (fun m => In m moves) ms
    /\ moveHistory _ (scramble_from _ rotateFace steps i random w) = moveHistory _ w ++ ms
    /\ cubeGroup _ (scramble_from _ rotateFace steps i random w)
       = fold_left rotateFace ms (cubeGroup _ w).
Proof.
  intros Hr; induction steps as [|steps IH]; intros i w.
  - exists []; cbn; rewrite app_nil_r; auto.
  - cbn [Solver.scramble_from].
    set (m := nth _ moves _).
    destruct (IH (S i) (makeMove _ rotateFace m w)) as (ms & Hl & Hm & Hh & Hc).
    exists (m :: ms); repeat split.
    + cbn; now rewrite Hl.
    + constructor; trivial; destruct (Hr i); now apply random_move.
    + rewrite Hh; cbn [makeMove moveHistory]; now rewrite <- app_assoc.
    + now rewrite Hc.
Qed.

(** X16: [scramble(cubeGroup, steps)] drops the history there was and
    leaves one of [steps] moves, each the name of a face, which is the
    record of what was done to the cube: the cube group is the one that
    [rotateFace] makes of the old one with the moves of the history, in
    their order. *)
Theorem scramble_records_its_moves (CubeGroup : Type)
    (rotateFace : CubeGroup -> string -> CubeGroup) (random : nat -> Q)
    (steps : nat) (w : World CubeGroup) :
  Scramble.unit_interval random ->
  let w' := scramble _ rotateFace steps random w in
  List.length (moveHistory _ w') = steps
  /\ Forall (fun m => In m moves) (moveHistory _ w')
  /\ cubeGroup _ w' = fold_left rotateFace (moveHistory _ w') (cubeGroup _ w).
Proof.
  intros Hr; unfold scramble; cbv zeta.
  destruct (scramble_from_spec _ rotateFace random steps Hr 0%nat
              (world _ (cubeGroup _ w) [])) as (ms & Hl & Hm & Hh & Hc).
  cbn [moveHistory cubeGroup app] in Hh, Hc.
  now rewrite Hh, Hc.
Qed.

(** ** [autoSolve] *)

Lemma firstn_succ_nth (l : list string) (n : nat) :
  (n < List.length l)%nat ->
  firstn (S n) l = firstn n l ++ [nth n l "undefined"%string].
Proof.
  revert n; induction l as [|a l IH]; intros n H; cbn in H; [lia|].
  destruct n as [|n]; [reflexivity|].
  cbn [firstn nth app]; f_equal; apply IH; lia.
Qed.

Lemma ticks_spec (CubeGroup : Type)
    (rotateFace : CubeGroup -> string -> CubeGroup) (w : World CubeGroup)
    (n : nat) :
  ticks _ rotateFace n (w, autoSolve _ w)
  = (world _ (fold_left rotateFace (firstn n (rev (moveHistory _ w)))
                        (cubeGroup _ w))
            (moveHistory _ w),
     replay (rev (moveHistory _ w))
            (Nat.min n (List.length (rev (moveHistory _ w))))
            (List.length (rev (moveHistory _ w)) <? n)%nat).
Proof.
  unfold Solver.ticks; induction n as [|n IH].
  - cbn; destruct w; reflexivity.
  - rewrite Nat.iter_succ, IH; unfold Solver.tick.
    cbn [cleared reverse replay_i cubeGroup moveHistory].
    set (rv := rev (moveHistory _ w)).
    destruct (Nat.ltb_spec (List.length rv) n) as [Hlt|Hge].
    + rewrite firstn_all2 by lia.
      rewrite (firstn_all2 (n := S n)) by lia.
      rewrite !Nat.min_r by lia.
      destruct (Nat.ltb_spec (List.length rv) (S n)); [reflexivity|lia].
    + rewrite Nat.min_l by lia.
      destruct (Nat.leb_spec (List.length rv) n) as [Hle|Hlt].
      * assert (n = List.length rv) by lia; subst n.
        rewrite Nat.min_r by lia.
        rewrite firstn_all, (firstn_all2 (n := S _)) by lia.
        destruct (Nat.ltb_spec (List.length rv) (S (List.length rv)));
          [reflexivity|lia].
      * rewrite firstn_succ_nth, fold_left_app by trivial.
        rewrite Nat.min_l by lia.
        destruct (Nat.ltb_spec (List.length rv) (S n)); [lia|reflexivity].
Qed.

(** X17: [autoSolve] turns the faces of the history again, last move
    first, one for each time the interval comes round, and turns none of
    them back: after [n] rounds the cube group is the one that
    [rotateFace] makes with the first [n] moves of the reversed history.
    The history itself is left as it was, and the interval is cleared by
    the first round that finds no move left. *)
Theorem autoSolve_replays_the_history_backwards (CubeGroup : Type)
    (rotateFace : CubeGroup -> string -> CubeGroup) (w : World CubeGroup)
    (n : nat) :
  let after := ticks _ rotateFace n (w, autoSolve _ w) in
  cubeGroup _ (fst after)
  = fold_left rotateFace (firstn n (rev (moveHistory _ w))) (cubeGroup _ w)
  /\ moveHistory _ (fst after) = moveHistory _ w
  /\ cleared (snd after) = (List.length (moveHistory _ w) <? n)%nat.
Proof.
  cbv zeta; rewrite ticks_spec; cbn [fst snd cubeGroup moveHistory cleared].
  now rewrite length_rev.
Qed.

Lemma scramble_records_its_moves_witness :
  List.length
    (moveHistory _
       (scramble _ sample_rotateFace 20 (fun _ => 1 # 2)
          (world _ [] ["R"; "U"]%string))) = 20%nat.
Proof.
  refine (proj1 (scramble_records_its_moves (list string) sample_rotateFace
                   (fun _ => 1 # 2) 20 (world _ [] ["R"; "U"]%string) _)).
  intros k; split; [discriminate|reflexivity].
Defined.

End SolverFacts.
